(** * serve-locally: the request-to-file resolver of [index.js]

    A shallow embedding of [locateFilePath], [match], [parseFilename],
    [fuzzyEqual] and the middleware returned by [serveLocally], together
    with the parts of the Node.js runtime they call ([path], [querystring],
    [fs], [Array.prototype.sort], loose equality), and the properties of
    the resolver stated over them.

    Strings are byte strings: a JavaScript string is represented by its
    UTF-8 encoding.  All the characters the program inspects (the slash,
    the dot, the question mark, the ampersand, the equals sign) are ASCII,
    so indexing and splitting agree with the UTF-16 view of the source;
    where [querystring] decodes escaped bytes, they are read as UTF-8 the
    way Node reads them.

    The file system and the host are what the code sees of them: a tree
    whose folders may refuse to be listed and whose entries may refuse to
    be stat'ed, a working directory that may be gone, and a logger,
    [next] and [res.json] that may throw.

    The runtime is Node.js as the package's README asks for it, 5.6 and
    above.  Where its releases differ the later behaviour is taken
    ([querystring.parse] returns an object without prototype and skips
    empty segments); the sort of arrays, on which the releases differ in
    a way the resolver depends on, is a parameter of [locateFilePath]. *)

From Stdlib Require Import ZArith QArith Qminmax String Ascii List Permutation Lia.
From stdpp Require Import base option list gmap strings.

Local Open Scope string_scope.
Local Open Scope Z_scope.

(** ** JavaScript values and completions *)

Module JS.

(** What a call may do: return a value or throw. *)
Inductive JSError : Type :=
| Error (message : string)                  (* [new Error(message)] *)
| SystemError (code : string) (path : string). (* thrown by [fs] *)

Inductive Completion (A : Type) : Type :=
| Return (a : A)
| Throw (e : JSError).
Arguments Return {A} a.
Arguments Throw {A} e.

Definition bind {A B} (c : Completion A) (k : A -> Completion B) : Completion B :=
  match c with
  | Return a => k a
  | Throw e => Throw e
  end.

(** [try { c } catch (err) { h }] *)
Definition tryCatch {A} (c : Completion A) (h : JSError -> Completion A) : Completion A :=
  match c with
  | Return a => Return a
  | Throw e => h e
  end.

(** The values found in a query object: a string, or an array of
    strings when a key is repeated. *)
Inductive Value : Type :=
| VStr (s : string)
| VArr (l : list string).

(** [Array.prototype.join] with the default separator. *)
Definition join (l : list string) : string := String.concat "," l.

(** [!v]: the empty string is falsy, an array never is. *)
Definition falsy (v : Value) : bool :=
  match v with
  | VStr s => String.eqb s ""
  | VArr _ => false
  end.

(** [a == b].  Two strings compare as strings; an array against a
    string compares its [join]; two arrays are two distinct objects. *)
Definition looseEq (a b : Value) : bool :=
  match a, b with
  | VStr x, VStr y => String.eqb x y
  | VArr l, VStr y => String.eqb (join l) y
  | VStr x, VArr l => String.eqb x (join l)
  | VArr _, VArr _ => false
  end.

(** [s.split(sep)] for a one-character separator: never empty. *)
Fixpoint split (sep : ascii) (s : string) : list string :=
  match s with
  | EmptyString => [EmptyString]
  | String c s' =>
      if Ascii.eqb c sep then EmptyString :: split sep s'
      else match split sep s' with
           | [] => [String c EmptyString]
           | w :: ws => String c w :: ws
           end
  end.

(** *** [ToNumber] of a string, as far as deciding that it is zero

    [Object.keys(o) == 0] converts the array of keys to a primitive (its
    [join]) and that string to a number. *)

Definition bytes (s : string) : list N :=
  List.map N_of_ascii (list_ascii_of_string s).

(** [StrWhiteSpaceChar]: TAB, LF, VT, FF, CR, SP in one byte; U+00A0 in
    two; U+1680, U+2000..U+200A, U+2028, U+2029, U+202F, U+205F, U+3000
    and U+FEFF in three. *)
Definition isWhiteSpace1 (b : N) : bool :=
  ((9 <=? b) && (b <=? 13) || (b =? 32))%N.

Definition isWhiteSpace2 (b c : N) : bool :=
  ((b =? 194) && (c =? 160))%N.

Definition isWhiteSpace3 (b c d : N) : bool :=
  ((b =? 225) && (c =? 154) && (d =? 128)
   || (b =? 226) && (c =? 128)
      && ((128 <=? d) && (d <=? 138) || (d =? 168) || (d =? 169) || (d =? 175))
   || (b =? 226) && (c =? 129) && (d =? 159)
   || (b =? 227) && (c =? 128) && (d =? 128)
   || (b =? 239) && (c =? 187) && (d =? 191))%N.

(** Length in bytes of the white space character at the head of [l], [0]
    when there is none. *)
Definition wsLen (l : list N) : nat :=
  match l with
  | b :: r =>
      if isWhiteSpace1 b then 1%nat
      else match r with
           | c :: r' =>
               if isWhiteSpace2 b c then 2%nat
               else match r' with
                    | d :: _ => if isWhiteSpace3 b c d then 3%nat else 0%nat
                    | [] => 0%nat
                    end
           | [] => 0%nat
           end
  | [] => 0%nat
  end.

(** The same at the end of the string, [l] being the string reversed. *)
Definition wsLenRev (l : list N) : nat :=
  match l with
  | b :: r =>
      if isWhiteSpace1 b then 1%nat
      else match r with
           | c :: r' =>
               if isWhiteSpace2 c b then 2%nat
               else match r' with
                    | d :: _ => if isWhiteSpace3 d c b then 3%nat else 0%nat
                    | [] => 0%nat
                    end
           | [] => 0%nat
           end
  | [] => 0%nat
  end.

Fixpoint trimWith (len : list N -> nat) (fuel : nat) (l : list N) : list N :=
  match fuel with
  | O => l
  | S fuel' =>
      match len l with
      | O => l
      | n => trimWith len fuel' (drop n l)
      end
  end.

Definition trim (l : list N) : list N :=
  let l1 := trimWith wsLen (length l) l in
  rev (trimWith wsLenRev (length l1) (rev l1)).

Definition isDigit (b : N) : bool := ((48 <=? b) && (b <=? 57))%N.

Definition digitVal (b : N) : Z := Z.of_N b - 48.

(** The longest prefix of decimal digits, and what follows it. *)
Fixpoint spanDigits (l : list N) : list N * list N :=
  match l with
  | b :: r =>
      if isDigit b then let (d, r') := spanDigits r in (b :: d, r')
      else ([], l)
  | [] => ([], [])
  end.

Definition digitsValue (d : list N) : Z :=
  fold_left (fun acc b => 10 * acc + digitVal b) d 0.

(** A leading sign, when there is one ([true] for minus), taken off. *)
Definition signed (l : list N) : bool * list N :=
  match l with
  | b :: r =>
      if (b =? 45)%N then (true, r)
      else if (b =? 43)%N then (false, r)
      else (false, l)
  | [] => (false, l)
  end.

(** [ExponentPart], optional: its value, or [None] when what follows the
    mantissa is not an exponent part reaching the end of the string. *)
Definition exponentPart (l : list N) : option Z :=
  match l with
  | [] => Some 0
  | e :: r =>
      if ((e =? 101) || (e =? 69))%N then
        let (neg, r1) := signed r in
        match spanDigits r1 with
        | ((_ :: _) as d, []) => Some (if neg then - digitsValue d else digitsValue d)
        | _ => None
        end
      else None
  end.

(** The fraction digits after a dot, when there is a dot. *)
Definition fractionPart (l : list N) : list N * list N :=
  match l with
  | b :: r => if (b =? 46)%N then spanDigits r else ([], l)
  | [] => ([], l)
  end.

(** [StrUnsignedDecimalLiteral] other than [Infinity]: whether its value
    rounds to zero as a double ([None]: not such a literal).  A non-zero
    mantissa rounds to zero exactly when the value is at most [2^-1075]. *)
Definition unsignedDecimalIsZero (l : list N) : option bool :=
  let (ip, r1) := spanDigits l in
  let (fp, r2) := fractionPart r1 in
  match ip, fp with
  | [], [] => None
  | _, _ =>
      match exponentPart r2 with
      | Some e =>
          let m := digitsValue (ip ++ fp) in
          let k := e - Z.of_nat (length fp) in
          Some ((m =? 0) || ((k <? 0) && (m * 2 ^ 1075 <=? 10 ^ (- k))))
      | None => None
      end
  end.

Definition isHexDigit (b : N) : bool :=
  (isDigit b || ((97 <=? b) && (b <=? 102)) || ((65 <=? b) && (b <=? 70)))%N.

Definition isOctalDigit (b : N) : bool := ((48 <=? b) && (b <=? 55))%N.

Definition isBinaryDigit (b : N) : bool := ((b =? 48) || (b =? 49))%N.

(** [0x], [0o], [0b] literals: zero when every digit is [0]. *)
Definition nonDecimalIsZero (l : list N) : option bool :=
  match l with
  | z :: p :: ((_ :: _) as ds) =>
      let valid :=
        if ((p =? 120) || (p =? 88))%N then Some isHexDigit
        else if ((p =? 111) || (p =? 79))%N then Some isOctalDigit
        else if ((p =? 98) || (p =? 66))%N then Some isBinaryDigit
        else None in
      match valid with
      | Some valid =>
          if (z =? 48)%N && forallb valid ds
          then Some (forallb (N.eqb 48) ds) else None
      | None => None
      end
  | _ => None
  end.

(** [ToNumber(s)] is [+0] or [-0]. *)
Definition StringToNumber_isZero (s : string) : bool :=
  match trim (bytes s) with
  | [] => true
  | t =>
      match nonDecimalIsZero t with
      | Some z => z
      | None =>
          match unsignedDecimalIsZero (signed t).2 with
          | Some z => z
          | None => false
          end
      end
  end.

(** [keys == 0] for an array of strings. *)
Definition arrayLooseEqZero (keys : list string) : bool :=
  StringToNumber_isZero (join keys).

(** *** UTF-8, UTF-16 and [decodeURIComponent] *)

Definition ofBytes (l : list N) : string :=
  string_of_list_ascii (List.map ascii_of_N l).

(** What a byte opens where a code point starts: a code point of one
    byte, nothing well-formed, or a sequence, with the number of bytes it
    still needs, the bits read and the bounds of the byte that follows. *)
Inductive Utf8Start : Type :=
| Single (codePoint : N)
| Invalid
| Lead (needed : nat) (codePoint lower upper : N).

Definition utf8Start (b : N) : Utf8Start :=
  (if b <=? 127 then Single b
   else if (194 <=? b) && (b <=? 223) then Lead 1 (b - 192) 128 191
   else if (224 <=? b) && (b <=? 239) then
     Lead 2 (b - 224) (if b =? 224 then 160 else 128) (if b =? 237 then 159 else 191)
   else if (240 <=? b) && (b <=? 244) then
     Lead 3 (b - 240) (if b =? 240 then 144 else 128) (if b =? 244 then 143 else 191)
   else Invalid)%N.

(** The UTF-8 decoder: the code points of [l], [None] standing where the
    bytes are not well-formed (one for each maximal ill-formed part: a
    byte that cannot continue the sequence under way ends it and is read
    again as a start).  [pending] is the sequence under way. *)
Fixpoint utf8Decode (pending : option (nat * N * N * N)) (l : list N)
  : list (option N) :=
  match l with
  | [] =>
      match pending with
      | Some _ => [None]
      | None => []
      end
  | b :: rest =>
      let start :=
        match utf8Start b with
        | Single codePoint => Some codePoint :: utf8Decode None rest
        | Invalid => None :: utf8Decode None rest
        | Lead needed codePoint lower upper =>
            utf8Decode (Some (needed, codePoint, lower, upper)) rest
        end in
      match pending with
      | None => start
      | Some (needed, codePoint, lower, upper) =>
          if ((lower <=? b) && (b <=? upper))%N then
            let codePoint := (codePoint * 64 + (b - 128))%N in
            match needed with
            | 1%nat => Some codePoint :: utf8Decode None rest
            | _ => utf8Decode (Some (Nat.pred needed, codePoint, 128%N, 191%N)) rest
            end
          else None :: start
      end
  end.

Definition wellFormed (l : list N) : bool :=
  forallb (fun c => match c with Some _ => true | None => false end) (utf8Decode None l).

(** U+FFFD, which stands for what could not be decoded. *)
Definition replacement : N := 65533%N.

Definition codePoints (l : list N) : list N :=
  List.map (default replacement) (utf8Decode None l).

Definition utf8Encode (codePoint : N) : list N :=
  (if codePoint <? 128 then [codePoint]
   else if codePoint <? 2048 then [192 + codePoint / 64; 128 + codePoint mod 64]
   else if codePoint <? 65536 then
     [224 + codePoint / 4096; 128 + (codePoint / 64) mod 64; 128 + codePoint mod 64]
   else
     [240 + codePoint / 262144; 128 + (codePoint / 4096) mod 64;
      128 + (codePoint / 64) mod 64; 128 + codePoint mod 64])%N.

Definition utf16Encode (codePoint : N) : list N :=
  (if codePoint <? 65536 then [codePoint]
   else [55296 + (codePoint - 65536) / 1024; 56320 + (codePoint - 65536) mod 1024])%N.

(** The code units of the JavaScript string that [s] stands for. *)
Definition codeUnits (s : string) : list N :=
  flat_map utf16Encode (codePoints (bytes s)).

(** [buffer.toString()]: the bytes read as UTF-8, U+FFFD where they are
    not well-formed. *)
Definition Buffer_toString (l : list N) : string :=
  ofBytes (flat_map utf8Encode (codePoints l)).

Definition hexDigit (n : N) : option N :=
  (if (48 <=? n) && (n <=? 57) then Some (n - 48)
   else if (97 <=? n) && (n <=? 102) then Some (n - 87)
   else if (65 <=? n) && (n <=? 70) then Some (n - 55)
   else None)%N.

(** The bytes of [s] with each escape replaced by the byte it names;
    [None] when a percent sign is not followed by two hexadecimal
    digits. *)
Fixpoint percentDecode (s : string) : option (list N) :=
  match s with
  | EmptyString => Some []
  | String c s' =>
      if Ascii.eqb c "%" then
        match s' with
        | String h (String l s'') =>
            match hexDigit (N_of_ascii h), hexDigit (N_of_ascii l) with
            | Some x, Some y => option_map (cons (16 * x + y)%N) (percentDecode s'')
            | _, _ => None
            end
        | _ => None
        end
      else option_map (cons (N_of_ascii c)) (percentDecode s')
  end.

(** [decodeURIComponent(s)]; [None] when it throws a [URIError]: an
    escape is cut short, or the escaped bytes are not the UTF-8 encoding
    of code points.  (What is not escaped is well-formed by itself, and
    an escaped byte and one that is not never make up one code point.) *)
Definition decodeURIComponent (s : string) : option string :=
  match percentDecode s with
  | Some l => if wellFormed l then Some (ofBytes l) else None
  | None => None
  end.

End JS.


(** ** [path] (POSIX flavour) *)

Module pathLib.

Definition isAbsolute (p : string) : bool :=
  match p with
  | String "/" _ => true
  | _ => false
  end.

Definition endsWithSlash (p : string) : bool :=
  match rev (list_ascii_of_string p) with
  | "/"%char :: _ => true
  | _ => false
  end.

(** [normalizeString]: the segments with [""] and ["."] dropped and
    [".."] resolved; [acc] is the result so far, last segment first. *)
Fixpoint normalizeSegments (allowAboveRoot : bool) (acc segs : list string)
  : list string :=
  match segs with
  | [] => rev acc
  | s :: rest =>
      if String.eqb s "" || String.eqb s "." then
        normalizeSegments allowAboveRoot acc rest
      else if String.eqb s ".." then
        match acc with
        | last :: acc' =>
            if String.eqb last ".."
            then normalizeSegments allowAboveRoot
                   (if allowAboveRoot then ".." :: acc else acc) rest
            else normalizeSegments allowAboveRoot acc' rest
        | [] =>
            normalizeSegments allowAboveRoot
              (if allowAboveRoot then [".."] else []) rest
        end
      else normalizeSegments allowAboveRoot (s :: acc) rest
  end.

Definition normalize (p : string) : string :=
  if String.eqb p "" then "."
  else
    let abs := isAbsolute p in
    let trailing := endsWithSlash p in
    let body := String.concat "/" (normalizeSegments (negb abs) [] (JS.split "/" p)) in
    if String.eqb body "" then
      if abs then "/" else if trailing then "./" else "."
    else
      (if abs then "/" else "") ++ body ++ (if trailing then "/" else "").

(** [path.join(a, b)] *)
Definition join (a b : string) : string :=
  match String.eqb a "", String.eqb b "" with
  | true, true => "."
  | true, false => normalize b
  | false, true => normalize a
  | false, false => normalize (a ++ "/" ++ b)
  end.

(** [path.resolve(p)] for a path that is absolute, or relative to the
    working directory [cwd] (absolute). *)
Definition resolveFrom (cwd p : string) : string :=
  let full := if isAbsolute p then p else cwd ++ "/" ++ p in
  "/" ++ String.concat "/" (normalizeSegments false [] (JS.split "/" full)).

(** [path.resolve(p)]: [process.cwd()] is called, and may throw, only
    for a path that is not absolute. *)
Definition resolve (process_cwd : JS.Completion string) (p : string)
  : JS.Completion string :=
  if isAbsolute p then JS.Return (resolveFrom "" p)
  else JS.bind process_cwd (fun cwd => JS.Return (resolveFrom cwd p)).

Record ParsedPath : Type := {
  root : string;
  dir : string;
  base : string;
  ext : string;
  name : string
}.

Definition isSlash (c : ascii) : bool := Ascii.eqb c "/".
Definition isDot (c : ascii) : bool := Ascii.eqb c ".".

Fixpoint dropWhile {A} (f : A -> bool) (l : list A) : list A :=
  match l with
  | x :: r => if f x then dropWhile f r else l
  | [] => []
  end.

Fixpoint span {A} (f : A -> bool) (l : list A) : list A * list A :=
  match l with
  | x :: r => if f x then let (a, b) := span f r in (x :: a, b) else ([], l)
  | [] => ([], [])
  end.

(** The name and the extension of a base name.  The extension starts at
    the last dot, unless that dot opens the base name or the base name
    is [".."] ([dotdot] says whether that exemption applies). *)
Definition splitExt (dotdot : bool) (base : list ascii) : list ascii * list ascii :=
  let (rext, rrest) := span (fun c => negb (isDot c)) (rev base) in
  match rrest with
  | [] => (base, [])                        (* no dot *)
  | _dot :: [] => (base, [])                (* the dot opens the base name *)
  | _dot :: rname =>
      if dotdot && String.eqb (string_of_list_ascii base) ".."
      then (base, [])
      else (rev rname, "."%char :: rev rext)
  end.

(** [path.parse(p)] *)
Definition parse (p : string) : ParsedPath :=
  let cs := list_ascii_of_string p in
  match cs with
  | [] => {| root := ""; dir := ""; base := ""; ext := ""; name := "" |}
  | c0 :: tl =>
      let abs := isSlash c0 in
      let rt := if abs then "/" else "" in
      let body := if abs then tl else cs in
      match dropWhile isSlash (rev body) with
      | [] => {| root := rt; dir := rt; base := ""; ext := ""; name := "" |}
      | rb =>
          let (rbase, rrest) := span (fun c => negb (isSlash c)) rb in
          let b := rev rbase in
          let d := match rrest with
                   | [] => rt
                   | _slash :: rdir => rt ++ string_of_list_ascii (rev rdir)
                   end in
          let dotdot := match rrest with
                        | [] => negb abs
                        | _ => true
                        end in
          let (n, e) := splitExt dotdot b in
          {| root := rt; dir := d;
             base := string_of_list_ascii b;
             ext := string_of_list_ascii e;
             name := string_of_list_ascii n |}
      end
  end.

(** [path.format(o)] *)
Definition format (root dir base ext name : string) : string :=
  let d := if String.eqb dir "" then root else dir in
  let b := if String.eqb base "" then name ++ ext else base in
  if String.eqb d "" then b
  else if String.eqb d root then d ++ b
  else d ++ "/" ++ b.

End pathLib.

(** ** [querystring] *)

Module querystring.

(** [unescapeBuffer(s)]: the bytes of the buffer, from the code units of
    [s].  A percent sign with two hexadecimal digits after it is the byte
    they name; any other code unit leaves its low byte. *)
Fixpoint unescapeBuffer (units : list N) : list N :=
  match units with
  | [] => []
  | c :: rest =>
      let plain := (c mod 256)%N :: unescapeBuffer rest in
      if (c =? 37)%N then
        match rest with
        | h :: l :: rest' =>
            match (if (h <? 128)%N then JS.hexDigit h else None),
                  (if (l <? 128)%N then JS.hexDigit l else None) with
            | Some x, Some y => (16 * x + y)%N :: unescapeBuffer rest'
            | _, _ => plain
            end
        | _ => plain
        end
      else plain
  end.

(** [querystring.unescape(s)]: [decodeURIComponent(s)], and when that
    throws, [unescapeBuffer(s).toString()]. *)
Definition unescape (s : string) : string :=
  match JS.decodeURIComponent s with
  | Some decoded => decoded
  | None => JS.Buffer_toString (unescapeBuffer (JS.codeUnits s))
  end.

Fixpoint plusToSpace (s : string) : string :=
  match s with
  | EmptyString => EmptyString
  | String c s' => String (if Ascii.eqb c "+" then " "%char else c) (plusToSpace s')
  end.

(** [parse] decodes a key or a value only when it has seen a percent
    sign followed by two hexadecimal digits in it. *)
Fixpoint hasEscape (s : string) : bool :=
  match s with
  | EmptyString => false
  | String c s' =>
      Ascii.eqb c "%"
      && match s' with
         | String h (String l _) =>
             match JS.hexDigit (N_of_ascii h), JS.hexDigit (N_of_ascii l) with
             | Some _, Some _ => true
             | _, _ => false
             end
         | _ => false
         end
      || hasEscape s'
  end.

(** A key or a value as [parse] stores it: plus signs are spaces. *)
Definition decode (s : string) : string :=
  let s := plusToSpace s in
  if hasEscape s then unescape s else s.

(** The key and the value of one [key=value] segment: split at the first
    equals sign, the value empty when there is none. *)
Definition keyValue (seg : string) : string * string :=
  match JS.split "=" seg with
  | [] => ("", "")
  | k :: vs => (decode k, decode (String.concat "=" vs))
  end.

(** [addKeyValue]: a repeated key collects its values in an array. *)
Definition addKeyValue (obj : gmap string JS.Value) (key value : string)
  : gmap string JS.Value :=
  match obj !! key with
  | None => <[key := JS.VStr value]> obj
  | Some (JS.VStr cur) => <[key := JS.VArr [cur; value]]> obj
  | Some (JS.VArr cur) => <[key := JS.VArr (cur ++ [value])]> obj
  end.

Definition maxKeys : nat := 1000.

(** [querystring.parse(qs)]; [None] is [undefined].  Empty segments are
    skipped and at most [maxKeys] segments are read.  The object returned
    has no prototype: its keys are the keys of the map, nothing else. *)
Definition parse (qs : option string) : gmap string JS.Value :=
  match qs with
  | None => ∅
  | Some s =>
      if String.eqb s "" then ∅
      else
        fold_left
          (fun obj seg =>
             if String.eqb seg "" then obj
             else let (k, v) := keyValue seg in addKeyValue obj k v)
          (take maxKeys (JS.split "&" s)) ∅
  end.

End querystring.

(** ** [fs]: the directory tree *)

Module fs.

(** A node of the tree, as [statSync] sees it (links followed): a plain
    file, a directory with its entries in the order [readdirSync] lists
    them, something else (a socket, a FIFO, a device), a directory that
    may not be read, or an entry that cannot be stat'ed (a link to
    nothing, a link that loops, an entry of a directory that may not be
    searched) with the code of the error [fs] throws for it. *)
#[warnings="-register-all"]
Inductive Node : Type :=
| File
| Dir (entries : list (string * Node))
| Other
| Locked
| NoStat (code : string).

Definition isDirectory (n : Node) : bool :=
  match n with
  | Dir _ | Locked => true
  | _ => false
  end.

Definition isFile (n : Node) : bool :=
  match n with
  | File => true
  | _ => false
  end.

(** [fs.statSync(path)], [n] being what [path] names. *)
Definition statSync (path : string) (n : Node) : JS.Completion Node :=
  match n with
  | NoStat code => JS.Throw (JS.SystemError code path)
  | _ => JS.Return n
  end.

(** [fs.readdirSync(path)], [n] being what [path] names.  The empty path
    names nothing. *)
Definition readdirSync (path : string) (n : Node) : JS.Completion (list (string * Node)) :=
  if String.eqb path "" then JS.Throw (JS.SystemError "ENOENT" path)
  else
    match n with
    | Dir entries => JS.Return entries
    | Locked => JS.Throw (JS.SystemError "EACCES" path)
    | NoStat code => JS.Throw (JS.SystemError code path)
    | File | Other => JS.Throw (JS.SystemError "ENOTDIR" path)
    end.

(** The node an entry name denotes in a listing: the first of that name. *)
Fixpoint lookup (name : string) (entries : list (string * Node)) : option Node :=
  match entries with
  | [] => None
  | (f, n) :: rest => if String.eqb f name then Some n else lookup name rest
  end.

End fs.

(** ** [Array.prototype.sort]

    The sort is the engine's.  ECMAScript promises a sorted result only
    for a consistent comparator; for any other the order is left to the
    implementation, and all that is known of the result is that it holds
    the same elements.  The comparator's result is taken as a number
    (a boolean [true] is [1], [false] is [0]). *)

Record ArraySort : Type := {
  sort : forall A : Type, (A -> A -> Z) -> list A -> list A;
  sort_Permutation : forall (A : Type) (cmp : A -> A -> Z) (l : list A),
      Permutation (sort A cmp l) l
}.
Arguments sort _ {A} cmp l.

Module V8.

Section Sorts.
Context {A : Type} (comparefn : A -> A -> Z).

(** *** V8 from 7.0 (Node 11): TimSort

    [CountAndMakeRun] compares each element with the one before it,
    [order = comparefn(current, previous)]: the run is descending when
    the first order is negative, and it ends where a descending run
    meets [order >= 0] or an ascending one meets [order < 0]. *)
Fixpoint runFrom (descending : bool) (previous : A) (l : list A) (runLength : nat) : nat :=
  match l with
  | [] => runLength
  | current :: rest =>
      let order := comparefn current previous in
      if (if descending then 0 <=? order else order <? 0)
      then runLength
      else runFrom descending current rest (S runLength)
  end.

Definition CountAndMakeRun (l : list A) : nat * bool :=
  match l with
  | [] => (0%nat, false)
  | [_] => (1%nat, false)
  | elementHigh :: elementLow :: rest =>
      let isDescending := comparefn elementLow elementHigh <? 0 in
      (runFrom isDescending elementLow rest 2, isDescending)
  end.

(** Stable insertion on the sign of the comparator. *)
Fixpoint insertStable (x : A) (l : list A) : list A :=
  match l with
  | [] => [x]
  | y :: r => if 0 <? comparefn x y then y :: insertStable x r else x :: l
  end.

Definition stableSort (l : list A) : list A := foldr insertStable [] l.

(** An array that is one run is done once the run is made ascending.
    Otherwise the runs are extended by binary insertion and merged;
    that phase is represented by [stableSort], with which it agrees
    for every consistent comparator.  No comparator of this program
    reaches it ([TimSort_nonneg]). *)
Definition TimSort (l : list A) : list A :=
  let (runLength, isDescending) := CountAndMakeRun l in
  if (runLength =? length l)%nat
  then (if isDescending then rev l else l)
  else stableSort l.

(** *** V8 before 7.0: [InsertionSort]

    Used for arrays of at most 10 elements (a longer array is first
    partitioned by a quicksort).  [element] moves left past every
    [tmp] with [comparefn(tmp, element) > 0]; the sorted prefix is
    kept last element first. *)
Fixpoint insertLeft (element : A) (prefix : list A) : list A :=
  match prefix with
  | [] => [element]
  | tmp :: rest =>
      if 0 <? comparefn tmp element
      then tmp :: insertLeft element rest
      else element :: prefix
  end.

Definition InsertionSort (l : list A) : list A :=
  rev (fold_left (fun prefix element => insertLeft element prefix) l []).

End Sorts.

End V8.

(** ** The resolver *)

Abbreviation Query := (gmap string JS.Value).

Definition Qltb (x y : Q) : bool := negb (Qle_bool y x).

(** The [for (let key in actual)] loop of [fuzzyEqual] over the entries of
    [actual] that remain: [None] when it leaves with [return -1], the
    match count otherwise. *)
Fixpoint fuzzyLoop (entries : list (string * JS.Value)) (matching : Query)
  (matchCount : Z) : option Z :=
  match entries with
  | [] => Some matchCount
  | (key, actualValue) :: rest =>
      match matching !! key with
      | None => fuzzyLoop rest matching matchCount
      | Some matchingValue =>
          if JS.falsy matchingValue then fuzzyLoop rest matching matchCount
          else if negb (JS.looseEq matchingValue actualValue) then None
          else fuzzyLoop rest matching (matchCount + 1)
      end
  end.

(** [Object.keys(o)] *)
Definition keys (o : Query) : list string := (map_to_list o).*1.

(** [fuzzyEqual(actual, matching)]; [actual] is [None] when the caller
    passes [null] or [undefined], the only objects that are falsy. *)
Definition fuzzyEqual (actual : option Query) (matching : Query) : Q :=
  match actual with
  | None =>
      if JS.arrayLooseEqZero (keys matching) then inject_Z 0 else inject_Z (-1)
  | Some actual =>
      match fuzzyLoop (map_to_list actual) matching 0 with
      | None => inject_Z (-1)
      | Some matchCount =>
          let nMatching := Z.of_nat (length (keys matching)) in
          let nActual := Z.of_nat (length (keys actual)) in
          if (0 <? matchCount) && (nActual <? nMatching) then
            let temp := matchCount - (nMatching - nActual) in
            Qmax (inject_Z temp) (1 # 2)
          else inject_Z matchCount
      end
  end.

(** What [parseFilename] returns: the fields of [path.parse] with
    [nameStripped] and [query] added. *)
Record ParsedFile : Type := {
  parsed : pathLib.ParsedPath;
  nameStripped : string;
  query : Query
}.

Definition parseFilename (filename : string) : option ParsedFile :=
  match filename with
  | String "." _ => None
  | _ =>
      let ret := pathLib.parse filename in
      let parts := JS.split "?" (pathLib.name ret) in
      Some {| parsed := ret;
              nameStripped := default "" (parts !! 0%nat);
              query := querystring.parse (parts !! 1%nat) |}
  end.

Definition format (f : ParsedFile) : string :=
  let p := parsed f in
  pathLib.format (pathLib.root p) (pathLib.dir p) (pathLib.base p)
    (pathLib.ext p) (pathLib.name p).

(** [match(pathFragment, currentDirectory)], [here] being the node at
    [currentDirectory]. *)
Definition match_ (pathFragment currentDirectory : string) (here : fs.Node)
  : JS.Completion string :=
  JS.bind (fs.readdirSync currentDirectory here) (fun files =>
  let pathMatch := List.find (fun file => String.eqb file pathFragment) files.*1 in
  match pathMatch with
  | Some file =>
      if String.eqb file "" then
        JS.Throw (JS.Error ("Could not find match for " ++ pathFragment ++ " in " ++ currentDirectory))
      else JS.Return file
  | None =>
      JS.Throw (JS.Error ("Could not find match for " ++ pathFragment ++ " in " ++ currentDirectory))
  end).

(** [fs.statSync(path)] where [path] names the entry [name] of [here]. *)
Definition statEntry (path name : string) (here : fs.Node) : JS.Completion fs.Node :=
  match here with
  | fs.Dir entries =>
      match fs.lookup name entries with
      | Some n => fs.statSync path n
      | None => JS.Throw (JS.SystemError "ENOENT" path)
      end
  | _ => JS.Throw (JS.SystemError "ENOTDIR" path)
  end.

(** The [while (path.length > 1)] loop: [position] and the node found
    there, and what is left of [path]. *)
Fixpoint findFolder (path : list string) (position : string) (here : fs.Node)
  : JS.Completion (list string * string * fs.Node) :=
  match path with
  | fragment :: ((_ :: _) as rest) =>
      JS.bind (match_ fragment position here) (fun directory =>
      let position' := pathLib.join position directory in
      JS.bind (statEntry position' directory here) (fun stats =>
      if fs.isDirectory stats then findFolder rest position' stats
      else JS.Throw (JS.Error ("match " ++ position' ++ " is not a directory"))))
  | _ => JS.Return (path, position, here)
  end.

Record Scored : Type := {
  item : ParsedFile;
  count : Q
}.

(** The comparator handed to [sort]: [a.count < b.count], a boolean. *)
Definition byCount (a b : Scored) : Z := Z.b2z (Qltb (count a) (count b)).

(** [files.filter((f) => fs.statSync(f).isFile())], each path with what it
    names: every entry is stat'ed in turn, and the first that cannot be
    ends the filter with the error. *)
Fixpoint onlyFiles (files : list (string * fs.Node))
  : JS.Completion (list (string * fs.Node)) :=
  match files with
  | [] => JS.Return []
  | f :: rest =>
      JS.bind (fs.statSync f.1 f.2) (fun stats =>
      JS.bind (onlyFiles rest) (fun kept =>
      JS.Return (if fs.isFile stats then f :: kept else kept)))
  end.

(** The files of the folder at [position], parsed. *)
Definition parsedFiles (position : string) (entries : list (string * fs.Node))
  : JS.Completion (list ParsedFile) :=
  let files := List.map (fun e => (pathLib.join position e.1, e.2)) entries in
  JS.bind (onlyFiles files) (fun files =>
  JS.Return (omap (fun f => parseFilename f.1) files)).

(** The scored matches of a leaf name, those of count [-1] removed, before
    they are sorted. *)
Definition scoredMatches (queryParams : option Query) (leaf : option string)
  (files : list ParsedFile) : list Scored :=
  let potentialMatches :=
    List.filter (fun f => bool_decide (leaf = Some (nameStripped f))) files in
  List.filter (fun m => negb (Qeq_bool (count m) (inject_Z (-1))))
    (List.map (fun m => {| item := m; count := fuzzyEqual queryParams (query m) |})
       potentialMatches).

Definition stripSlash (path : string) : string :=
  match path with
  | String "/" rest => rest
  | _ => path
  end.

(** [locateFilePath(path, queryParams, root)] on the engine [E], [tree]
    being the node found at [root].  [Return None] is [undefined]. *)
Definition locateFilePath (E : ArraySort) (tree : fs.Node)
  (path : string) (queryParams : option Query) (root : string)
  : JS.Completion (option string) :=
  let path := JS.split "/" (stripSlash path) in
  JS.bind (findFolder path root tree) (fun '(path, position, here) =>
  JS.bind (fs.readdirSync position here) (fun entries =>
  JS.bind (parsedFiles position entries) (fun files =>
  let potentialMatches :=
    sort E byCount (scoredMatches queryParams (last path) files) in
  match potentialMatches with
  | m :: _ => JS.Return (Some (format (item m)))
  | [] => JS.Return None
  end))).


(** ** Notions the statements use *)

(** The candidate holds a value for the key of [e] that is not falsy and
    differs ([!=]) from the request's. *)
Definition mismatch (matching : Query) (e : string * JS.Value) : bool :=
  match matching !! e.1 with
  | Some matchingValue =>
      negb (JS.falsy matchingValue) && negb (JS.looseEq matchingValue e.2)
  | None => false
  end.

(** The candidate holds a value for the key of [e] that is not falsy and
    equals ([==]) the request's. *)
Definition agrees (matching : Query) (e : string * JS.Value) : bool :=
  match matching !! e.1 with
  | Some matchingValue =>
      negb (JS.falsy matchingValue) && JS.looseEq matchingValue e.2
  | None => false
  end.

(** The scored matches [locateFilePath] hands to [sort]. *)
Definition candidates (tree : fs.Node) (path : string) (queryParams : option Query)
  (root : string) : JS.Completion (list Scored) :=
  JS.bind (findFolder (JS.split "/" (stripSlash path)) root tree)
    (fun '(path, position, here) =>
  JS.bind (fs.readdirSync position here) (fun entries =>
  JS.bind (parsedFiles position entries) (fun files =>
  JS.Return (scoredMatches queryParams (last path) files)))).

(** [potentialMatches[0]], formatted, when there is one. *)
Definition first (potentialMatches : list Scored) : option string :=
  match potentialMatches with
  | m :: _ => Some (format (item m))
  | [] => None
  end.

(** The request sent through the query string [k1=v1&k2=v2...]. *)
Definition queryOf (l : list (string * string)) : Query :=
  list_to_map (List.map (fun kv => (kv.1, JS.VStr kv.2)) l).

(** The folder reached from [here], at [position], when each of
    [segments] in turn names a directory of the folder reached so far;
    [None] when one of them names nothing or names something that is not
    a directory. *)
Fixpoint descend (segments : list string) (position : string) (here : fs.Node)
  : option (string * fs.Node) :=
  match segments with
  | [] => Some (position, here)
  | segment :: rest =>
      match here with
      | fs.Dir entries =>
          match fs.lookup segment entries with
          | Some (fs.Dir _ as child) =>
              if String.eqb segment "" then None
              else descend rest (pathLib.join position segment) child
          | _ => None
          end
      | _ => None
      end
  end.

(** The stripped name of the file at [filename]: its name without the
    extension and without what follows a question mark. *)
Definition strippedName (filename : string) : string :=
  default "" (JS.split "?" (pathLib.name (pathLib.parse filename)) !! 0%nat).

(** Counts that do not decrease along the list. *)
Definition ascending (l : list Scored) : Prop :=
  forall i j x y, (i < j)%nat -> l !! i = Some x -> l !! j = Some y ->
                  (count x <= count y)%Q.

(** The folder of the header's example, [resource?a=1.json],
    [resource?a=1&b=not2.json] and [resource?a=1&b=2.json], and the
    request sent with it. *)
Definition scenario3_tree : fs.Node :=
  fs.Dir [("resource?a=1.json", fs.File);
          ("resource?a=1&b=not2.json", fs.File);
          ("resource?a=1&b=2.json", fs.File)].

Definition scenario3_query : Query :=
  queryOf [("a", "1"); ("b", "2"); ("clientId", "a1b2c34d")].

(** The folder of the repository's test [should handle query params]. *)
Definition scenario2_tree : fs.Node :=
  fs.Dir [("resource.json", fs.File); ("resource?foo=bar.json", fs.File)].

(** The byte of the comma that [join] puts between the keys. *)
Definition comma : N := 44%N.

(** A name as [readdirSync] lists them: not empty, without a slash, and
    neither [.] nor [..]. *)
Definition entryName (name : string) : bool :=
  negb (String.eqb name "")
  && negb (existsb pathLib.isSlash (list_ascii_of_string name))
  && negb (String.eqb name ".")
  && negb (String.eqb name "..").

(** An entry's name without its extension. *)
Definition stem (name : string) : string :=
  string_of_list_ascii (pathLib.splitExt true (list_ascii_of_string name)).1.

(** A segment that can stand in a normalised path: not empty and not
    starting with a slash. *)
Definition plain (s : string) : Prop := s <> "" /\ pathLib.isAbsolute s = false.

(** A relative path that starts by going up: [..] or [../...]. *)
Definition goesUp (p : string) : Prop :=
  exists segments, JS.split "/" p = ".." :: segments.

(** An entry that [fs.statSync] can stat. *)
Definition statable (n : fs.Node) : bool :=
  match n with
  | fs.NoStat _ => false
  | _ => true
  end.

(** The plain files among [entries], each under its path from
    [position], parsed; those [parseFilename] takes for hidden are left
    out. *)
Definition filesOf (position : string) (entries : list (string * fs.Node))
  : list ParsedFile :=
  omap (fun e => if fs.isFile e.2 then parseFilename (pathLib.join position e.1) else None)
    entries.

(** ** The middleware *)

(** The module-level [logger]: the initial [() => {}], [console.log], or
    a function the caller supplied. *)
Inductive Logger : Type :=
| noop
| consoleLog
| loggerFunction (name : string).

(** [opts.logger]: a function, a value that [== true], or anything else. *)
Inductive LoggerOption : Type :=
| optFunction (name : string)
| optTrue
| optOther.

Record Options : Type := {
  opt_root : option string;
  opt_logger : LoggerOption
}.

Record Request : Type := {
  req_path : string;
  req_query : option Query
}.

(** What the middleware sees of the world while it handles one request:
    the tree found at its root, what [process.cwd()] answers (it throws
    when the working directory is gone), and what [fs.readFile] hands to
    its callback for a path. *)
Record World : Type := {
  tree : fs.Node;
  cwd : JS.Completion string;
  readFile : string -> JS.Completion string
}.

Section Middleware.

Context {Json : Type} (JSON_parse : string -> JS.Completion Json).
Context (E : ArraySort).

Inductive LogArgument : Type :=
| argString (s : string)
| argError (e : JS.JSError).

(** The calls made to the host: the logger, [next()], [res.json(data)]. *)
Inductive Event : Type :=
| LoggerCall (logger : Logger) (arguments : list LogArgument)
| NextCall
| ResJsonCall (data : Json).

(** How the host's functions end when they are called: the logger that
    was supplied (or [console.log]), [next] and [res.json]. *)
Record Host : Type := {
  logger_result : Logger -> list LogArgument -> JS.Completion unit;
  next_result : JS.Completion unit;
  res_json_result : Json -> JS.Completion unit
}.

(** A computation that calls the host and may throw. *)
Definition Eff (A : Type) : Type := list Event * JS.Completion A.

Definition ret {A} (a : A) : Eff A := ([], JS.Return a).
Definition lift {A} (c : JS.Completion A) : Eff A := ([], c).
Definition emit (e : Event) : Eff unit := ([e], JS.Return tt).

(** A call that ends as the host decides. *)
Definition call (e : Event) (result : JS.Completion unit) : Eff unit := ([e], result).

Definition bindE {A B} (m : Eff A) (k : A -> Eff B) : Eff B :=
  match m with
  | (evs, JS.Return a) => let (evs', c) := k a in ((evs ++ evs')%list, c)
  | (evs, JS.Throw e) => (evs, JS.Throw e)
  end.

Definition tryCatchE {A} (m : Eff A) (h : JS.JSError -> Eff A) : Eff A :=
  match m with
  | (evs, JS.Return a) => (evs, JS.Return a)
  | (evs, JS.Throw e) => let (evs', c) := h e in ((evs ++ evs')%list, c)
  end.

Local Notation "x <- m ;; k" := (bindE m (fun x => k))
  (at level 100, m at next level, right associativity).
Local Notation "m ;; k" := (bindE m (fun _ => k))
  (at level 100, right associativity).

(** [!filePath] *)
Definition noFilePath (filePath : option string) : bool :=
  match filePath with
  | None => true
  | Some p => String.eqb p ""
  end.

(** [serveLocally(opts)]: sets the module's [logger] and fixes [root]. *)
Definition serveLocally (opts : option Options) (logger : Logger) : Logger * string :=
  let logger' :=
    match opts with
    | Some {| opt_logger := optFunction f |} => loggerFunction f
    | Some {| opt_logger := optTrue |} => consoleLog
    | _ => logger
    end in
  let root :=
    match opts with
    | Some {| opt_root := Some r |} => if String.eqb r "" then "." else r
    | _ => "."
    end in
  (logger', root).

Context (host : Host).

(** How a call of the module's logger ends: the initial logger,
    [() => {}], returns; any other ends as the host decides. *)
Definition loggerResult (logger : Logger) (arguments : list LogArgument)
  : JS.Completion unit :=
  match logger with
  | noop => JS.Return tt
  | _ => logger_result host logger arguments
  end.

(** [logger(...)], [logger] being the module's logger. *)
Definition callLogger (logger : Logger) (arguments : list LogArgument) : Eff unit :=
  call (LoggerCall logger arguments) (loggerResult logger arguments).

(** The function [serveLocally(opts)] returns, applied to a request, up
    to its return; [logger] is the module's logger when it is called.  It
    returns [Some filePath] when it has handed [filePath] and its callback
    to [fs.readFile]. *)
Definition serveLocally_middleware (root : string) (logger : Logger)
  (w : World) (req : Request) : Eff (option string) :=
  filePath <- tryCatchE
                (lift (locateFilePath E (tree w) (req_path req) (req_query req) root))
                (fun err => ret None) ;;
  if noFilePath filePath then
    resolved <- lift (pathLib.resolve (cwd w) (pathLib.join root (req_path req))) ;;
    callLogger logger [argString "Could not find match for"; argString resolved] ;;
    call NextCall (next_result host) ;;
    ret None
  else ret filePath.

(** The callback handed to [fs.readFile], run once the read has ended
    with [outcome]; [logger] is the module's logger by then.  What it
    throws goes to the event loop, not to the caller of the middleware. *)
Definition readFile_callback (logger : Logger) (filePath : string)
  (outcome : JS.Completion string) : Eff unit :=
  match outcome with
  | JS.Throw err => call NextCall (next_result host)
  | JS.Return data =>
      parsed <- tryCatchE
                  (data <- lift (JSON_parse data) ;; ret (Some data))
                  (fun err =>
                     callLogger logger
                       [argString "Could not parse json from";
                        argString filePath; argError err] ;;
                     call NextCall (next_result host) ;;
                     ret None) ;;
      match parsed with
      | None => ret tt
      | Some data =>
          callLogger logger [argString "Responding with data from"; argString filePath] ;;
          call (ResJsonCall data) (res_json_result host data)
      end
  end.

(** A request handled to the end: the calls the host received, how the
    middleware's own call ended, and how the callback of [fs.readFile]
    ended when a read was started. *)
Record Handled : Type := {
  events : list Event;
  returned : JS.Completion unit;
  calledBack : option (JS.Completion unit)
}.

(** The middleware called under the logger [logger], and its callback,
    when there is one, run under the logger [logger']. *)
Definition handle (root : string) (logger logger' : Logger) (w : World) (req : Request)
  : Handled :=
  match serveLocally_middleware root logger w req with
  | (evs, JS.Return (Some filePath)) =>
      let (evs', c) := readFile_callback logger' filePath (readFile w filePath) in
      {| events := (evs ++ evs')%list; returned := JS.Return tt; calledBack := Some c |}
  | (evs, JS.Return None) =>
      {| events := evs; returned := JS.Return tt; calledBack := None |}
  | (evs, JS.Throw e) =>
      {| events := evs; returned := JS.Throw e; calledBack := None |}
  end.

(** What the host received: the bodies handed to [res.json], and how many
    times [next] was called. *)
Definition responses (events : list Event) : list Json :=
  omap (fun e => match e with ResJsonCall data => Some data | _ => None end) events.

Definition nextCalls (events : list Event) : nat :=
  length (List.filter (fun e => match e with NextCall => true | _ => false end) events).

(** Resolution, read and parse all succeed, with the parsed data. *)
Definition served (root : string) (w : World) (req : Request) : option Json :=
  match locateFilePath E (tree w) (req_path req) (req_query req) root with
  | JS.Return (Some filePath) =>
      if String.eqb filePath "" then None
      else match readFile w filePath with
           | JS.Return data =>
               match JSON_parse data with
               | JS.Return parsed => Some parsed
               | JS.Throw _ => None
               end
           | JS.Throw _ => None
           end
  | _ => None
  end.

End Middleware.

Arguments NextCall {Json}.
Arguments LoggerCall {Json} logger arguments.
Arguments Host Json : clear implicits.
Arguments Handled Json : clear implicits.

(** ** A session: calls made to the module, one after the other *)

Section Session.

Context {Json : Type} (JSON_parse : string -> JS.Completion Json).
Context (E : ArraySort) (w : World) (host : Host Json).

(** The calls of a session: the module's two functions, a middleware
    that [serveLocally] returned for [root], and, made by the event loop,
    the callback of a read that a middleware started. *)
Inductive Call : Type :=
| callServeLocally (opts : option Options)
| callMiddleware (root : string) (req : Request)
| callReadFileCallback (filePath : string)
| callLocateFilePath (path : string) (queryParams : option Query) (root : string).

Inductive Outcome : Type :=
| configured (root : string)
| handled (result : Eff (Json := Json) (option string))
| ranCallback (result : Eff (Json := Json) unit)
| located (result : JS.Completion (option string)).

(** One call, from the module's [logger] to the outcome and the
    [logger] it leaves. *)
Definition step (c : Call) (logger : Logger) : Outcome * Logger :=
  match c with
  | callServeLocally opts =>
      let (logger', root) := serveLocally opts logger in
      (configured root, logger')
  | callMiddleware root req =>
      (handled (serveLocally_middleware E host root logger w req), logger)
  | callReadFileCallback filePath =>
      (ranCallback (readFile_callback JSON_parse host logger filePath (readFile w filePath)),
       logger)
  | callLocateFilePath path queryParams root =>
      (located (locateFilePath E (tree w) path queryParams root), logger)
  end.

Definition exec (calls : list Call) (logger : Logger) : Logger :=
  fold_left (fun lg c => (step c lg).2) calls logger.

End Session.

(** ** A host and a world to try the middleware on *)

(** A stand-in for [JSON.parse] on texts: the empty text does not parse. *)
Definition parseText (data : string) : JS.Completion string :=
  if String.eqb data "" then JS.Throw (JS.Error "Unexpected end of JSON input")
  else JS.Return data.

(** A host whose functions all return. *)
Definition quietHost : Host string :=
  {| logger_result := fun _ _ => JS.Return tt;
     next_result := JS.Return tt;
     res_json_result := fun _ => JS.Return tt |}.

(** A host whose logger throws. *)
Definition failingLoggerHost : Host string :=
  {| logger_result := fun _ _ => JS.Throw (JS.Error "logger failed");
     next_result := JS.Return tt;
     res_json_result := fun _ => JS.Return tt |}.

(** The folder [mocks] with [resource.json] in it, under [/srv]. *)
Definition mocksWorld : World :=
  {| tree := fs.Dir [("resource.json", fs.File)];
     cwd := JS.Return "/srv";
     readFile := fun p => if String.eqb p "mocks/resource.json" then JS.Return "{}"
                          else JS.Throw (JS.SystemError "ENOENT" p) |}.

(** The same when the working directory has been removed. *)
Definition noCwdWorld : World :=
  {| tree := tree mocksWorld;
     cwd := JS.Throw (JS.SystemError "ENOENT" "");
     readFile := readFile mocksWorld |}.

(** ** The earlier revision of [index.js]

    The file holds two revisions of the module.  In the earlier one
    [locateFilePath] takes the options, not the root, and returns the
    first file of the name without looking at the query; its middleware
    has no logger and does not catch what [locateFilePath] throws.
    [match] and [parseFilename] are the same in both. *)

Module Revision1.

(** [opts.root], or [.] when it is missing or empty. *)
Definition rootOf (opts : Options) : string :=
  match opt_root opts with
  | Some r => if String.eqb r "" then "." else r
  | None => "."
  end.

(** The parsed files of the folder reached whose stripped name is the
    last segment. *)
Definition potentialMatches (tree : fs.Node) (path : string) (opts : Options)
  : JS.Completion (list ParsedFile) :=
  JS.bind (findFolder (JS.split "/" (stripSlash path)) (rootOf opts) tree)
    (fun '(path, position, here) =>
  JS.bind (fs.readdirSync position here) (fun entries =>
  JS.bind (parsedFiles position entries) (fun files =>
  JS.Return (List.filter (fun f => bool_decide (last path = Some (nameStripped f))) files)))).

(** [locateFilePath(path, queryParams, opts)] *)
Definition locateFilePath (tree : fs.Node) (path : string)
  (queryParams : option Query) (opts : Options) : JS.Completion (option string) :=
  JS.bind (potentialMatches tree path opts) (fun potentialMatches =>
  match potentialMatches with
  | m :: _ => JS.Return (Some (format m))
  | [] => JS.Return None
  end).

Section Middleware.

Context {Json : Type} (JSON_parse : string -> JS.Completion Json).

Local Notation "x <- m ;; k" := (bindE m (fun x => k))
  (at level 100, m at next level, right associativity).
Local Notation "m ;; k" := (bindE m (fun _ => k))
  (at level 100, right associativity).

(** The function [serveLocally(opts)] returns, applied to a request.
    The calls of [next] and [res.json] are recorded as made; the
    callback of [fs.readFile] follows the call. *)
Definition serveLocally_middleware (opts : Options) (w : World) (req : Request)
  : Eff (Json := Json) unit :=
  filePath <- lift (locateFilePath (tree w) (req_path req) (req_query req) opts) ;;
  if noFilePath filePath then emit NextCall
  else
    let filePath := default "" filePath in
    match readFile w filePath with
    | JS.Throw err => emit NextCall
    | JS.Return data =>
        parsed <- tryCatchE
                    (data <- lift (JSON_parse data) ;; ret (Some data))
                    (fun err => emit NextCall ;; ret None) ;;
        match parsed with
        | None => ret tt
        | Some data => emit (ResJsonCall data)
        end
    end.

End Middleware.

End Revision1.

(** * Properties *)

(** ** The engines' sorts *)

Section SortFacts.

Context {A : Type} (comparefn : A -> A -> Z).

Lemma insertStable_Permutation x l : Permutation (V8.insertStable comparefn x l) (x :: l).
Proof.
  induction l as [|y r IH]; simpl; [reflexivity|].
  destruct (0 <? comparefn x y); [|reflexivity].
  rewrite IH. apply perm_swap.
Qed.

Lemma stableSort_Permutation l : Permutation (V8.stableSort comparefn l) l.
Proof.
  induction l as [|x r IH]; simpl; [reflexivity|].
  rewrite insertStable_Permutation. now constructor.
Qed.

Lemma TimSort_Permutation l : Permutation (V8.TimSort comparefn l) l.
Proof.
  unfold V8.TimSort. destruct (V8.CountAndMakeRun comparefn l) as [n d].
  destruct (n =? length l)%nat; [destruct d|].
  - symmetry. apply Permutation_rev.
  - reflexivity.
  - apply stableSort_Permutation.
Qed.

Lemma insertLeft_Permutation x l : Permutation (V8.insertLeft comparefn x l) (x :: l).
Proof.
  induction l as [|y r IH]; simpl; [reflexivity|].
  destruct (0 <? comparefn y x); [|reflexivity].
  rewrite IH. apply perm_swap.
Qed.

Lemma InsertionSort_Permutation l : Permutation (V8.InsertionSort comparefn l) l.
Proof.
  unfold V8.InsertionSort. rewrite <- Permutation_rev.
  assert (H : forall acc, Permutation
             (fold_left (fun prefix element => V8.insertLeft comparefn element prefix) l acc)
             (acc ++ l)).
  { induction l as [|x r IH]; intros acc; simpl.
    - now rewrite app_nil_r.
    - rewrite IH, insertLeft_Permutation. apply Permutation_middle. }
  apply (H []).
Qed.

(** A comparator that never answers a negative number leaves every
    array as it is. *)
Lemma runFrom_nonneg (Hcmp : forall a b, 0 <= comparefn a b) previous l n :
  V8.runFrom comparefn false previous l n = (n + length l)%nat.
Proof.
  revert previous n. induction l as [|x r IH]; intros previous n; simpl.
  - lia.
  - destruct (Z.ltb_spec (comparefn x previous) 0) as [Hlt|_].
    + specialize (Hcmp x previous). lia.
    + rewrite IH. lia.
Qed.

Lemma TimSort_nonneg (Hcmp : forall a b, 0 <= comparefn a b) l :
  V8.TimSort comparefn l = l.
Proof.
  unfold V8.TimSort, V8.CountAndMakeRun.
  destruct l as [|x [|y r]]; simpl; try reflexivity.
  destruct (Z.ltb_spec (comparefn y x) 0) as [Hlt|_].
  - specialize (Hcmp y x). lia.
  - rewrite runFrom_nonneg by assumption.
    now rewrite Nat.eqb_refl.
Qed.

End SortFacts.

(** V8 from 7.0 on. *)
Definition v8_timsort : ArraySort :=
  {| sort := @V8.TimSort; sort_Permutation := @TimSort_Permutation |}.

(** V8 before 7.0 on arrays of at most ten elements.  A longer array
    goes through its quicksort first, which is not modelled: whatever is
    stated of this instance is stated of arrays within that bound. *)
Definition v8_legacy : ArraySort :=
  {| sort := @V8.InsertionSort; sort_Permutation := @InsertionSort_Permutation |}.

(** ** The scoring loop *)

Lemma fuzzyLoop_spec entries matching c :
  fuzzyLoop entries matching c =
    if existsb (mismatch matching) entries then None
    else Some (c + Z.of_nat (length (List.filter (agrees matching) entries))).
Proof.
  revert c. induction entries as [|[key v] rest IH]; intros c; simpl.
  - f_equal. lia.
  - unfold mismatch at 1, agrees at 1. simpl.
    destruct (matching !! key) as [mv|]; simpl; [|apply IH].
    destruct (JS.falsy mv); simpl; [apply IH|].
    destruct (JS.looseEq mv v); simpl; [|reflexivity].
    rewrite IH. destruct (existsb _ rest); [reflexivity|].
    f_equal. lia.
Qed.

Lemma fuzzyLoop_nonneg entries matching c n :
  fuzzyLoop entries matching c = Some n -> c <= n.
Proof.
  rewrite fuzzyLoop_spec. destruct (existsb _ _); [discriminate|].
  intros [= <-]. lia.
Qed.

(** The score is [-1] exactly when the loop left with [return -1]. *)
Lemma fuzzyEqual_excluded_iff (actual matching : Query) :
  (fuzzyEqual (Some actual) matching == inject_Z (-1))%Q <->
  fuzzyLoop (map_to_list actual) matching 0 = None.
Proof.
  unfold fuzzyEqual.
  destruct (fuzzyLoop (map_to_list actual) matching 0) as [n|] eqn:Hloop.
  - split; [|discriminate]. intros Heq. exfalso.
    apply fuzzyLoop_nonneg in Hloop.
    destruct ((0 <? n) && _).
    + assert (Hle : (1 # 2 <= Qmax (inject_Z (n - (Z.of_nat (length (keys matching)) - Z.of_nat (length (keys actual))))) (1 # 2))%Q)
        by apply Q.le_max_r.
      rewrite Heq in Hle. revert Hle. unfold Qle. simpl. lia.
    + revert Heq. unfold Qeq. simpl. lia.
  - split; [reflexivity|]. intros _. reflexivity.
Qed.

(** ** The order of the keys is immaterial

    A query object is a finite map: the order in which JavaScript
    enumerates its keys is not kept.  Nothing depends on it.  The loop of
    [fuzzyEqual] ends the same way on any arrangement of the request's
    entries, and an array of two keys or more, whose [join] holds a comma,
    never converts to the number zero. *)

(** X17.  The loop of [fuzzyEqual] ends the same way, excluded or with the
    same count, whatever the order in which the keys of the request are
    enumerated. *)
Lemma fuzzyLoop_Permutation entries entries' matching c :
  Permutation entries entries' ->
  fuzzyLoop entries matching c = fuzzyLoop entries' matching c.
Proof.
  intros Hperm. rewrite !fuzzyLoop_spec.
  assert (He : existsb (mismatch matching) entries = existsb (mismatch matching) entries').
  { apply eq_true_iff_eq. rewrite !existsb_exists.
    split; intros (x & Hx & Hm); exists x; split; try assumption.
    - now apply (Permutation_in x Hperm).
    - now apply (Permutation_in x (Permutation_sym Hperm)). }
  rewrite He. destruct (existsb _ entries'); [reflexivity|].
  do 3 f_equal. apply Permutation_length.
  clear He. induction Hperm as [|x l l' _ IH|x y l|l l' l'' _ IH1 _ IH2]; simpl.
  - reflexivity.
  - destruct (agrees matching x); [now constructor|assumption].
  - destruct (agrees matching x), (agrees matching y); try reflexivity. apply perm_swap.
  - now transitivity (List.filter (agrees matching) l').
Qed.

Ltac bools H :=
  repeat first
    [ rewrite orb_true_iff in H | rewrite andb_true_iff in H
    | rewrite N.eqb_eq in H | rewrite N.leb_le in H ].

Lemma wsLen_take l : Forall (fun b => b <> comma) (take (JS.wsLen l) l).
Proof.
  unfold comma.
  destruct l as [|b r]; simpl; [constructor|].
  destruct (JS.isWhiteSpace1 b) eqn:H1.
  { unfold JS.isWhiteSpace1 in H1. bools H1. repeat constructor. lia. }
  destruct r as [|c r']; [constructor|].
  destruct (JS.isWhiteSpace2 b c) eqn:H2.
  { unfold JS.isWhiteSpace2 in H2. bools H2. repeat constructor; lia. }
  destruct r' as [|d r'']; [constructor|].
  destruct (JS.isWhiteSpace3 b c d) eqn:H3; [|constructor].
  unfold JS.isWhiteSpace3 in H3. bools H3. repeat constructor; lia.
Qed.

Lemma wsLenRev_take l : Forall (fun b => b <> comma) (take (JS.wsLenRev l) l).
Proof.
  unfold comma.
  destruct l as [|b r]; simpl; [constructor|].
  destruct (JS.isWhiteSpace1 b) eqn:H1.
  { unfold JS.isWhiteSpace1 in H1. bools H1. repeat constructor. lia. }
  destruct r as [|c r']; [constructor|].
  destruct (JS.isWhiteSpace2 c b) eqn:H2.
  { unfold JS.isWhiteSpace2 in H2. bools H2. repeat constructor; lia. }
  destruct r' as [|d r'']; [constructor|].
  destruct (JS.isWhiteSpace3 d c b) eqn:H3; [|constructor].
  unfold JS.isWhiteSpace3 in H3. bools H3. repeat constructor; lia.
Qed.

Lemma trimWith_comma len fuel l :
  (forall l', Forall (fun b => b <> comma) (take (len l') l')) ->
  In comma l -> In comma (JS.trimWith len fuel l).
Proof.
  intros Hlen. revert l. induction fuel as [|fuel IH]; intros l Hin; simpl; [assumption|].
  destruct (len l) as [|n] eqn:Hn; [assumption|]. apply IH.
  rewrite <- (take_drop (S n) l) in Hin. apply in_app_or in Hin as [Hin|Hin]; [|assumption].
  exfalso. specialize (Hlen l). rewrite Hn in Hlen.
  rewrite Forall_forall in Hlen. apply (Hlen comma); [|reflexivity].
  now apply list_elem_of_In.
Qed.

Lemma trim_comma l : In comma l -> In comma (JS.trim l).
Proof.
  intros Hin. unfold JS.trim. apply in_rev. rewrite rev_involutive.
  apply trimWith_comma; [apply wsLenRev_take|]. apply in_rev. rewrite rev_involutive.
  now apply trimWith_comma; [apply wsLen_take|].
Qed.

Lemma spanDigits_spec l d r :
  JS.spanDigits l = (d, r) -> l = (d ++ r)%list /\ Forall (fun b => b <> comma) d.
Proof.
  revert d r. induction l as [|b l IH]; intros d r; simpl.
  - intros [= <- <-]. now split.
  - destruct (JS.isDigit b) eqn:Hb; [|intros [= <- <-]; now split].
    destruct (JS.spanDigits l) as [d' r']. intros [= <- <-].
    destruct (IH d' r' eq_refl) as [-> Hd]. split; [reflexivity|].
    constructor; [|assumption].
    unfold JS.isDigit in Hb. bools Hb. unfold comma. lia.
Qed.

Lemma signed_comma l : In comma l -> In comma (JS.signed l).2.
Proof.
  unfold JS.signed. destruct l as [|b r]; [intros []|].
  destruct (N.eqb_spec b 45) as [->|_]; [intros [H|H]; [discriminate|assumption]|].
  destruct (N.eqb_spec b 43) as [->|_]; [intros [H|H]; [discriminate|assumption]|].
  trivial.
Qed.

Lemma exponentPart_comma l e :
  JS.exponentPart l = Some e -> Forall (fun b => b <> comma) l.
Proof.
  unfold JS.exponentPart. destruct l as [|b r]; [constructor|].
  destruct ((b =? 101) || (b =? 69))%N eqn:Hb; [|discriminate].
  destruct (JS.signed r) as [neg r1] eqn:Hs.
  destruct (JS.spanDigits r1) as [[|d0 d] [|x rest]] eqn:Hd; try discriminate.
  intros _. apply spanDigits_spec in Hd as [Hr1 Hd]. rewrite List.app_nil_r in Hr1. subst r1.
  constructor; [bools Hb; unfold comma; lia|].
  unfold JS.signed in Hs. destruct r as [|s r']; [discriminate|].
  destruct (N.eqb_spec s 45) as [->|_]; [injection Hs as _ ->; now constructor|].
  destruct (N.eqb_spec s 43) as [->|_]; [injection Hs as _ ->; now constructor|].
  injection Hs as _ -> ->. assumption.
Qed.

Lemma unsignedDecimalIsZero_comma l z :
  JS.unsignedDecimalIsZero l = Some z -> Forall (fun b => b <> comma) l.
Proof.
  unfold JS.unsignedDecimalIsZero.
  destruct (JS.spanDigits l) as [ip r1] eqn:Hip.
  apply spanDigits_spec in Hip as [-> Hip].
  destruct (JS.fractionPart r1) as [fp r2] eqn:Hfp.
  assert (Hr1 : forall e, JS.exponentPart r2 = Some e -> Forall (fun b => b <> comma) r1).
  { intros e He. apply exponentPart_comma in He.
    unfold JS.fractionPart in Hfp. destruct r1 as [|b r]; [constructor|].
    destruct (N.eqb_spec b 46) as [->|_]; [|now injection Hfp as _ <-].
    apply spanDigits_spec in Hfp as [-> Hfp].
    constructor; [discriminate|]. now apply Forall_app. }
  intros H. apply Forall_app. split; [assumption|].
  destruct (JS.exponentPart r2) as [e|]; [now apply (Hr1 e)|].
  destruct ip, fp; discriminate.
Qed.

Lemma nonDecimalIsZero_comma l z :
  JS.nonDecimalIsZero l = Some z -> Forall (fun b => b <> comma) l.
Proof.
  unfold JS.nonDecimalIsZero.
  destruct l as [|b [|p [|d ds]]]; try discriminate.
  assert (Hvalid : forall valid : N -> bool,
             (forall x, valid x = true -> x <> comma) ->
             (b =? 48)%N && forallb valid (d :: ds) = true ->
             p <> comma -> Forall (fun b => b <> comma) (b :: p :: d :: ds)).
  { intros valid Hv H Hp. apply andb_true_iff in H as [Hb Hds].
    apply N.eqb_eq in Hb. subst b.
    constructor; [discriminate|]. constructor; [assumption|].
    rewrite forallb_forall in Hds. apply Forall_forall. intros x Hx.
    apply Hv, Hds. now apply list_elem_of_In. }
  destruct ((p =? 120) || (p =? 88))%N eqn:Hx.
  { destruct ((b =? 48)%N && forallb JS.isHexDigit (d :: ds)) eqn:H; [|discriminate].
    intros _. apply (Hvalid JS.isHexDigit); [|assumption|bools Hx; unfold comma; lia].
    intros x Hv. unfold JS.isHexDigit, JS.isDigit in Hv. bools Hv. unfold comma. lia. }
  destruct ((p =? 111) || (p =? 79))%N eqn:Ho.
  { destruct ((b =? 48)%N && forallb JS.isOctalDigit (d :: ds)) eqn:H; [|discriminate].
    intros _. apply (Hvalid JS.isOctalDigit); [|assumption|bools Ho; unfold comma; lia].
    intros x Hv. unfold JS.isOctalDigit in Hv. bools Hv. unfold comma. lia. }
  destruct ((p =? 98) || (p =? 66))%N eqn:Hb; [|discriminate].
  destruct ((b =? 48)%N && forallb JS.isBinaryDigit (d :: ds)) eqn:H; [|discriminate].
  intros _. apply (Hvalid JS.isBinaryDigit); [|assumption|bools Hb; unfold comma; lia].
  intros x Hv. unfold JS.isBinaryDigit in Hv. bools Hv. unfold comma. lia.
Qed.

Lemma StringToNumber_isZero_comma s :
  In comma (JS.bytes s) -> JS.StringToNumber_isZero s = false.
Proof.
  intros Hin. apply trim_comma in Hin. unfold JS.StringToNumber_isZero.
  destruct (JS.trim (JS.bytes s)) as [|b t] eqn:Ht; [destruct Hin|].
  destruct (JS.nonDecimalIsZero (b :: t)) as [z|] eqn:Hn.
  { apply nonDecimalIsZero_comma in Hn. rewrite Forall_forall in Hn.
    exfalso. apply (Hn comma); [now apply list_elem_of_In|reflexivity]. }
  destruct (JS.unsignedDecimalIsZero (JS.signed (b :: t)).2) as [z|] eqn:Hu; [|reflexivity].
  apply unsignedDecimalIsZero_comma in Hu. rewrite Forall_forall in Hu.
  exfalso. apply (Hu comma); [|reflexivity].
  now apply list_elem_of_In, signed_comma.
Qed.

Lemma bytes_app s1 s2 : JS.bytes (s1 ++ s2) = (JS.bytes s1 ++ JS.bytes s2)%list.
Proof.
  unfold JS.bytes. induction s1 as [|c s1 IH]; simpl; [reflexivity|]. now f_equal.
Qed.

Lemma arrayLooseEqZero_several k1 k2 ks :
  JS.arrayLooseEqZero (k1 :: k2 :: ks) = false.
Proof.
  unfold JS.arrayLooseEqZero, JS.join. apply StringToNumber_isZero_comma.
  change (String.concat "," (k1 :: k2 :: ks))
    with (k1 ++ "," ++ String.concat "," (k2 :: ks)).
  rewrite !bytes_app. apply in_or_app. right. now left.
Qed.

(** Whatever the order in which the keys of [o] are enumerated. *)
Lemma arrayLooseEqZero_Permutation (o : Query) (enumerated : list string) :
  Permutation enumerated (keys o) ->
  JS.arrayLooseEqZero enumerated = JS.arrayLooseEqZero (keys o).
Proof.
  intros Hperm. pose proof (Permutation_length Hperm) as Hlen.
  destruct enumerated as [|k1 [|k2 ks]], (keys o) as [|k1' [|k2' ks']];
    try discriminate; try reflexivity.
  - apply Permutation_length_1 in Hperm. now subst.
  - now rewrite !arrayLooseEqZero_several.
Qed.

(** ** Listing a folder and telling its files *)

Lemma readdirSync_inv position here entries :
  fs.readdirSync position here = JS.Return entries ->
  position <> "" /\ here = fs.Dir entries.
Proof.
  unfold fs.readdirSync. destruct (String.eqb_spec position "") as [->|Hne]; [discriminate|].
  destruct here; try discriminate. now intros [= ->].
Qed.

Lemma readdirSync_Dir position entries :
  position <> "" -> fs.readdirSync position (fs.Dir entries) = JS.Return entries.
Proof.
  intros Hne. unfold fs.readdirSync. apply String.eqb_neq in Hne. now rewrite Hne.
Qed.

Lemma statSync_statable path n :
  statable n = true -> fs.statSync path n = JS.Return n.
Proof. now destruct n. Qed.

Lemma statSync_inv path n stats :
  fs.statSync path n = JS.Return stats -> statable n = true /\ stats = n.
Proof. destruct n; simpl; try discriminate; now intros [= <-]. Qed.

(** The filter returns when every entry can be stat'ed, and only then. *)
Lemma onlyFiles_inv files kept :
  onlyFiles files = JS.Return kept ->
  forallb (fun f => statable f.2) files = true /\
  kept = List.filter (fun f => fs.isFile f.2) files.
Proof.
  revert kept. induction files as [|f files IH]; intros kept; simpl.
  - now intros [= <-].
  - destruct (fs.statSync f.1 f.2) as [stats|e] eqn:Hstat; simpl; [|discriminate].
    apply statSync_inv in Hstat as [Hf ->].
    destruct (onlyFiles files) as [kept'|e]; simpl; [|discriminate].
    intros [= <-]. destruct (IH kept' eq_refl) as [Hall ->].
    rewrite Hf, Hall. split; [reflexivity|]. now destruct (fs.isFile f.2).
Qed.

Lemma onlyFiles_statable files :
  forallb (fun f => statable f.2) files = true ->
  onlyFiles files = JS.Return (List.filter (fun f => fs.isFile f.2) files).
Proof.
  induction files as [|f files IH]; simpl; [reflexivity|].
  intros H. apply andb_true_iff in H as [Hf Hall].
  rewrite (statSync_statable _ _ Hf), (IH Hall). simpl. now destruct (fs.isFile f.2).
Qed.

Lemma filesOf_filter position entries :
  omap (fun f : string * fs.Node => parseFilename f.1)
    (List.filter (fun f => fs.isFile f.2)
       (List.map (fun e => (pathLib.join position e.1, e.2)) entries))
  = filesOf position entries.
Proof.
  unfold filesOf. induction entries as [|[name n] entries IH]; [reflexivity|].
  cbn [List.map List.filter omap list_omap fst snd].
  destruct (fs.isFile n); cbn [omap list_omap fst snd]; now rewrite IH.
Qed.

Lemma forallb_statable_map position (entries : list (string * fs.Node)) :
  forallb (fun f : string * fs.Node => statable f.2)
    (List.map (fun e => (pathLib.join position e.1, e.2)) entries)
  = forallb (fun e => statable e.2) entries.
Proof. induction entries as [|e entries IH]; [reflexivity|]. simpl. now rewrite IH. Qed.

Lemma parsedFiles_inv position entries files :
  parsedFiles position entries = JS.Return files ->
  forallb (fun e => statable e.2) entries = true /\ files = filesOf position entries.
Proof.
  unfold parsedFiles.
  destruct (onlyFiles _) as [kept|e] eqn:Hk; simpl; [|discriminate].
  intros [= <-]. apply onlyFiles_inv in Hk as [Hall ->].
  rewrite forallb_statable_map in Hall. split; [assumption|apply filesOf_filter].
Qed.

Lemma parsedFiles_statable position entries :
  forallb (fun e => statable e.2) entries = true ->
  parsedFiles position entries = JS.Return (filesOf position entries).
Proof.
  intros Hall. unfold parsedFiles.
  rewrite onlyFiles_statable by now rewrite forallb_statable_map.
  simpl. now rewrite filesOf_filter.
Qed.

(** ** The shape of [locateFilePath] *)

Lemma locateFilePath_candidates E tree path queryParams root :
  locateFilePath E tree path queryParams root =
  JS.bind (candidates tree path queryParams root)
    (fun l => JS.Return (first (sort E byCount l))).
Proof.
  unfold locateFilePath, candidates.
  destruct (findFolder _ root tree) as [[[rest position] here]|e]; simpl; [|reflexivity].
  destruct (fs.readdirSync position here) as [entries|e]; simpl; [|reflexivity].
  destruct (parsedFiles position entries) as [files|e]; simpl; [|reflexivity].
  destruct (sort E byCount _); reflexivity.
Qed.

Lemma sort_nil (E : ArraySort) {A} (cmp : A -> A -> Z) : sort E cmp [] = [].
Proof. apply Permutation_nil. symmetry. apply sort_Permutation. Qed.

Lemma sort_singleton (E : ArraySort) {A} (cmp : A -> A -> Z) x : sort E cmp [x] = [x].
Proof. apply Permutation_length_1_inv. symmetry. apply sort_Permutation. Qed.

Lemma locateFilePath_none E tree path queryParams root :
  candidates tree path queryParams root = JS.Return [] ->
  locateFilePath E tree path queryParams root = JS.Return None.
Proof.
  intros H. rewrite locateFilePath_candidates, H. simpl. now rewrite sort_nil.
Qed.

Lemma locateFilePath_single E tree path queryParams root m :
  candidates tree path queryParams root = JS.Return [m] ->
  locateFilePath E tree path queryParams root = JS.Return (Some (format (item m))).
Proof.
  intros H. rewrite locateFilePath_candidates, H. simpl. now rewrite sort_singleton.
Qed.

(** A file that is returned is the first of the sorted matches, one of
    the scored matches. *)
Lemma locateFilePath_some E tree path queryParams root p :
  locateFilePath E tree path queryParams root = JS.Return (Some p) ->
  exists l m, candidates tree path queryParams root = JS.Return l /\
              In m l /\ p = format (item m).
Proof.
  rewrite locateFilePath_candidates.
  destruct (candidates tree path queryParams root) as [l|e]; simpl; [|discriminate].
  destruct (sort E byCount l) as [|m rest] eqn:Hs; simpl; [discriminate|].
  intros [= <-]. exists l, m. split; [reflexivity|]. split; [|reflexivity].
  apply (Permutation_in m (sort_Permutation E _ byCount l)).
  rewrite Hs. now left.
Qed.

Lemma scoredMatches_In queryParams leaf files m :
  In m (scoredMatches queryParams leaf files) <->
  In (item m) files /\ leaf = Some (nameStripped (item m)) /\
  count m = fuzzyEqual queryParams (query (item m)) /\
  ~ (count m == inject_Z (-1))%Q.
Proof.
  unfold scoredMatches. rewrite filter_In, in_map_iff. split.
  - intros [[f [<- Hf]] Hc]. apply filter_In in Hf as [Hin Hleaf]. simpl in *.
    apply bool_decide_eq_true in Hleaf.
    repeat split; try assumption.
    intros Heq. apply Qeq_bool_iff in Heq. rewrite Heq in Hc. discriminate.
  - intros (Hin & Hleaf & Hcount & Hne). split.
    + exists (item m). split.
      * destruct m as [it c]. simpl in *. now subst c.
      * apply filter_In. split; [assumption|]. now apply bool_decide_eq_true.
    + destruct (Qeq_bool (count m) (inject_Z (-1))) eqn:Hb; [|reflexivity].
      apply Qeq_bool_iff in Hb. contradiction.
Qed.


(** ** The score *)

Lemma keys_length (o : Query) : length (keys o) = size o.
Proof. unfold keys. now rewrite length_fmap, length_map_to_list. Qed.

Lemma inject_Z_penalty (c m a : Z) :
  (inject_Z (c - (m - a)) == inject_Z c - (inject_Z m - inject_Z a))%Q.
Proof. unfold Qeq, Qminus, Qplus, Qopp, inject_Z. simpl. lia. Qed.

(** C4.  When the loop over the request's keys ends with a positive match
    count and the candidate's parsed query has strictly more keys than the
    request, the score is [max(matchCount - (candidate keys - request
    keys), 0.5)]; when the match count is [0] or the candidate has no more
    keys than the request, the score is the match count, unpenalised. *)
Theorem fuzzyEqual_specificity_penalty (actual matching : Query) (matchCount : Z) :
  fuzzyLoop (map_to_list actual) matching 0 = Some matchCount ->
  (0 < matchCount -> (size actual < size matching)%nat ->
   (fuzzyEqual (Some actual) matching ==
      Qmax (inject_Z matchCount -
              (inject_Z (Z.of_nat (size matching)) - inject_Z (Z.of_nat (size actual))))
           (1 # 2))%Q) /\
  (matchCount = 0 \/ (size matching <= size actual)%nat ->
   fuzzyEqual (Some actual) matching = inject_Z matchCount).
Proof.
  intros Hloop. unfold fuzzyEqual. rewrite Hloop, !keys_length. split.
  - intros Hpos Hmore.
    replace (0 <? matchCount) with true by (symmetry; apply Z.ltb_lt; lia).
    replace (Z.of_nat (size actual) <? Z.of_nat (size matching)) with true
      by (symmetry; apply Z.ltb_lt; lia).
    simpl. apply Q.max_compat; [apply inject_Z_penalty|reflexivity].
  - intros [-> | Hle].
    + reflexivity.
    + replace (Z.of_nat (size actual) <? Z.of_nat (size matching)) with false
        by (symmetry; apply Z.ltb_ge; lia).
      now rewrite andb_false_r.
Qed.

(** The request [?a=1] against a candidate named [...?a=1&b=2&c=3]: one
    match, two keys in excess, and the floor of one half. *)
Lemma fuzzyEqual_specificity_penalty_witness :
  (fuzzyEqual (Some (queryOf [("a", "1")])) (querystring.parse (Some "a=1&b=2&c=3"))
   == Qmax (inject_Z 1 - (inject_Z 3 - inject_Z 1)) (1 # 2))%Q.
Proof.
  refine (proj1 (fuzzyEqual_specificity_penalty
                   (queryOf [("a", "1")]) (querystring.parse (Some "a=1&b=2&c=3")) 1 _) _ _).
  - vm_compute. reflexivity.
  - lia.
  - vm_compute. lia.
Defined.

(** ** Empty values in a candidate's name *)

Lemma fuzzyLoop_delete_empty entries (matching : Query) key c :
  matching !! key = Some (JS.VStr "") ->
  fuzzyLoop entries matching c = fuzzyLoop entries (delete key matching) c.
Proof.
  intros Hkey. revert c.
  induction entries as [|[k v] rest IH]; intros c; simpl; [reflexivity|].
  destruct (decide (k = key)) as [->|Hne].
  - rewrite Hkey, lookup_delete_eq. simpl. apply IH.
  - rewrite lookup_delete_ne by congruence.
    destruct (matching !! k) as [mv|]; [|apply IH].
    destruct (JS.falsy mv); [apply IH|].
    destruct (negb _); [reflexivity|apply IH].
Qed.

(** C10, amended.  A candidate whose parsed query gives a key the empty
    string is read by the loop of [fuzzyEqual] as one without that key:
    from any entries of the request and any running count the loop ends
    the same way, so the candidate is excluded exactly when it would be
    without the key; and [resource?foo=.json] scores [0], not [-1],
    against a request carrying [foo] with any value.  The key still
    counts among the candidate's keys when the penalty is reckoned: the
    score is at most the score of the candidate without the key. *)
Theorem fuzzyEqual_empty_value_skipped (actual matching : Query) (key : string) :
  matching !! key = Some (JS.VStr "") ->
  (forall entries c,
      fuzzyLoop entries matching c = fuzzyLoop entries (delete key matching) c) /\
  ((fuzzyEqual (Some actual) matching == inject_Z (-1))%Q <->
   (fuzzyEqual (Some actual) (delete key matching) == inject_Z (-1))%Q) /\
  (fuzzyEqual (Some actual) matching <= fuzzyEqual (Some actual) (delete key matching))%Q /\
  (forall v : JS.Value,
      fuzzyEqual (Some {[ "foo" := v ]}) (querystring.parse (Some "foo=")) = inject_Z 0).
Proof.
  intros Hkey. split; [|split; [|split]].
  - intros entries c. now apply fuzzyLoop_delete_empty.
  - rewrite !fuzzyEqual_excluded_iff.
    now rewrite (fuzzyLoop_delete_empty _ matching key 0 Hkey).
  - unfold fuzzyEqual. rewrite <- (fuzzyLoop_delete_empty _ matching key 0 Hkey).
    destruct (fuzzyLoop (map_to_list actual) matching 0) as [c|]; [|apply Qle_refl].
    rewrite !keys_length, map_size_delete_Some by eauto.
    assert (Hpos : (0 < size matching)%nat).
    { assert (size matching <> 0%nat); [|lia].
      apply (map_size_non_empty_iff matching). intros ->.
      now rewrite lookup_empty in Hkey. }
    destruct (Z.ltb_spec 0 c) as [Hc|Hc]; [|apply Qle_refl]. cbn [andb].
    destruct (Z.ltb_spec (Z.of_nat (size actual)) (Z.of_nat (size matching))) as [Hm|Hm];
      destruct (Z.ltb_spec (Z.of_nat (size actual)) (Z.of_nat (Nat.pred (size matching))))
        as [Hm'|Hm']; try lia.
    + apply Q.max_le_compat_r. rewrite <- Zle_Qle. lia.
    + apply Q.max_lub; [rewrite <- Zle_Qle; lia|unfold Qle; simpl; lia].
    + apply Qle_refl.
  - intros v. unfold fuzzyEqual. rewrite map_to_list_singleton. reflexivity.
Qed.

Lemma fuzzyEqual_empty_value_skipped_witness :
  (fuzzyEqual (Some (queryOf [("foo", "bar")])) (querystring.parse (Some "foo="))
   == inject_Z (-1))%Q <->
  (fuzzyEqual (Some (queryOf [("foo", "bar")])) (delete "foo" (querystring.parse (Some "foo=")))
   == inject_Z (-1))%Q.
Proof.
  refine (proj1 (proj2 (fuzzyEqual_empty_value_skipped
                          (queryOf [("foo", "bar")]) (querystring.parse (Some "foo=")) "foo" _))).
  vm_compute. reflexivity.
Defined.

(** C10 as stated fails: the candidate is not scored as if it lacked the
    key.  Against the request [?foo=bar&a=1] the candidate named
    [...?foo=&a=1&z=9] matches on [a] and counts three keys to the
    request's two: it scores one half, where the candidate named
    [...?a=1&z=9], the same without [foo], scores [1]. *)
Lemma fuzzyEqual_empty_value_counts :
  ~ (forall (actual matching : Query) key v,
        actual !! key = Some v -> matching !! key = Some (JS.VStr "") ->
        (fuzzyEqual (Some actual) matching
         == fuzzyEqual (Some actual) (delete key matching))%Q) /\
  fuzzyEqual (Some (queryOf [("foo", "bar"); ("a", "1")]))
    (querystring.parse (Some "foo=&a=1&z=9")) = 1 # 2 /\
  fuzzyEqual (Some (queryOf [("foo", "bar"); ("a", "1")]))
    (querystring.parse (Some "a=1&z=9")) = inject_Z 1.
Proof.
  split; [|split; vm_compute; reflexivity].
  intros H.
  specialize (H (queryOf [("foo", "bar"); ("a", "1")])
                (querystring.parse (Some "foo=&a=1&z=9")) "foo" (JS.VStr "bar")).
  assert (Hs : (fuzzyEqual (Some (queryOf [("foo", "bar"); ("a", "1")]))
                  (querystring.parse (Some "foo=&a=1&z=9"))
                == fuzzyEqual (Some (queryOf [("foo", "bar"); ("a", "1")]))
                     (delete "foo" (querystring.parse (Some "foo=&a=1&z=9"))))%Q).
  { apply H; vm_compute; reflexivity. }
  vm_compute in Hs. discriminate.
Qed.

(** ** Evaluating the resolver on a given tree *)

(** A lookup that leaves one scored match returns it on every engine. *)
Ltac one_candidate :=
  etransitivity;
  [ eapply locateFilePath_single; vm_compute; reflexivity
  | vm_compute; reflexivity ].

Ltac no_candidate :=
  apply locateFilePath_none; vm_compute; reflexivity.

Lemma empty_value_candidate_served (E : ArraySort) :
  locateFilePath E (fs.Dir [("resource?foo=.json", fs.File)]) "/resource"
    (Some (queryOf [("foo", "bar")])) "mocks"
  = JS.Return (Some "mocks/resource?foo=.json").
Proof. one_candidate. Qed.

Lemma scenario4 (E : ArraySort) :
  locateFilePath E (fs.Dir [("resource?x=1.json", fs.File)]) "/resource" None "mocks"
  = JS.Return None.
Proof. no_candidate. Qed.

(** ** A request without query parameters *)

Lemma fuzzyEqual_no_query (matching : Query) :
  fuzzyEqual None matching =
  if JS.arrayLooseEqZero (keys matching) then inject_Z 0 else inject_Z (-1).
Proof. reflexivity. Qed.

Lemma fuzzyEqual_no_query_empty : fuzzyEqual None ∅ = inject_Z 0.
Proof. reflexivity. Qed.

(** An empty query object, which is what Express hands over for a URL
    without a query string, is not falsy: the loop has nothing to do and
    every candidate scores [0], whatever its name encodes. *)
Lemma fuzzyEqual_empty_request (matching : Query) :
  fuzzyEqual (Some ∅) matching = inject_Z 0.
Proof. unfold fuzzyEqual. rewrite map_to_list_empty. reflexivity. Qed.

(** C3.  What the code does with [null] for the query and a candidate named
    [resource?0=1.json]: the parsed query [{0: "1"}] is not empty, yet
    [Object.keys(matching) == 0] holds (the array [["0"]] converts to the
    number [0]), the score is [0] and the file is returned, on every
    engine.  The claim's own candidate [resource?x=1.json] is refused
    ([scenario4]) and the empty query scores [0]
    ([fuzzyEqual_no_query_empty]). *)
Theorem fuzzyEqual_no_query_numeric_key :
  querystring.parse (Some "0=1") = {[ "0" := JS.VStr "1" ]} /\
  fuzzyEqual None (querystring.parse (Some "0=1")) = inject_Z 0 /\
  forall E : ArraySort,
    locateFilePath E (fs.Dir [("resource?0=1.json", fs.File)]) "/resource" None "mocks"
    = JS.Return (Some "mocks/resource?0=1.json").
Proof.
  split; [|split].
  - vm_compute. reflexivity.
  - vm_compute. reflexivity.
  - intros E. one_candidate.
Qed.

(** ** Mismatched values *)

Lemma fuzzyEqual_mismatch (actual matching : Query) key av mv :
  actual !! key = Some av -> matching !! key = Some mv ->
  JS.falsy mv = false -> JS.looseEq mv av = false ->
  fuzzyEqual (Some actual) matching = inject_Z (-1).
Proof.
  intros Ha Hm Hf Hl. unfold fuzzyEqual. rewrite fuzzyLoop_spec.
  replace (existsb (mismatch matching) (map_to_list actual)) with true; [reflexivity|].
  symmetry. apply existsb_exists. exists (key, av). split.
  - apply list_elem_of_In. now apply elem_of_map_to_list.
  - unfold mismatch. simpl. now rewrite Hm, Hf, Hl.
Qed.

Lemma candidates_inv tree path queryParams root l :
  candidates tree path queryParams root = JS.Return l ->
  exists rest position entries files,
    findFolder (JS.split "/" (stripSlash path)) root tree
      = JS.Return (rest, position, fs.Dir entries) /\
    position <> "" /\
    parsedFiles position entries = JS.Return files /\
    l = scoredMatches queryParams (last rest) files.
Proof.
  unfold candidates.
  destruct (findFolder _ root tree) as [[[rest position] here]|e]; simpl; [|discriminate].
  destruct (fs.readdirSync position here) as [entries|e] eqn:Hdir; simpl; [|discriminate].
  apply readdirSync_inv in Hdir as [Hpos ->].
  destruct (parsedFiles position entries) as [files|e] eqn:Hfiles; simpl; [|discriminate].
  intros [= <-]. now exists rest, position, entries, files.
Qed.

Lemma candidates_folder tree path queryParams root rest position entries files :
  findFolder (JS.split "/" (stripSlash path)) root tree
    = JS.Return (rest, position, fs.Dir entries) ->
  position <> "" ->
  parsedFiles position entries = JS.Return files ->
  candidates tree path queryParams root
    = JS.Return (scoredMatches queryParams (last rest) files).
Proof.
  intros H Hpos Hfiles. unfold candidates. rewrite H. cbn [JS.bind].
  rewrite (readdirSync_Dir _ _ Hpos). cbn [JS.bind]. rewrite Hfiles. reflexivity.
Qed.

(** C2.  What the code does with a candidate whose name gives a key of
    the request the empty string: [resource?foo=.json] holds [""] for
    [foo], which differs from the request's ["bar"], yet the test
    [!matchingValue], meant to tell that the candidate lacks the key,
    takes the empty string for no value; the candidate scores [0], not
    [-1], and, the only file of its name, it is the one returned, on
    every engine. *)
Theorem fuzzyEqual_mismatch_empty_value :
  querystring.parse (Some "foo=") = {[ "foo" := JS.VStr "" ]} /\
  JS.looseEq (JS.VStr "") (JS.VStr "bar") = false /\
  fuzzyEqual (Some (queryOf [("foo", "bar")])) (querystring.parse (Some "foo=")) = inject_Z 0 /\
  forall E : ArraySort,
    locateFilePath E (fs.Dir [("resource?foo=.json", fs.File)]) "/resource"
      (Some (queryOf [("foo", "bar")])) "mocks"
    = JS.Return (Some "mocks/resource?foo=.json").
Proof.
  split; [|split; [|split]]; try (vm_compute; reflexivity).
  intros E. apply empty_value_candidate_served.
Qed.

(** ** Walking the folders *)

Lemma append_nonempty_r (a b : string) : b <> "" -> a ++ b <> "".
Proof. destruct a; [trivial|discriminate]. Qed.

Lemma append_nonempty_l (a b : string) : a <> "" -> a ++ b <> "".
Proof. destruct a; [contradiction|discriminate]. Qed.

Lemma normalize_nonempty p : pathLib.normalize p <> "".
Proof.
  unfold pathLib.normalize. destruct (String.eqb p ""); [discriminate|].
  destruct (String.eqb_spec
              (String.concat "/"
                 (pathLib.normalizeSegments (negb (pathLib.isAbsolute p)) [] (JS.split "/" p)))
              "") as [_|Hbody].
  - destruct (pathLib.isAbsolute p); [discriminate|].
    destruct (pathLib.endsWithSlash p); discriminate.
  - apply append_nonempty_r. now apply append_nonempty_l.
Qed.

(** A joined path is never the empty string. *)
Lemma join_nonempty a b : pathLib.join a b <> "".
Proof.
  unfold pathLib.join.
  destruct (String.eqb a ""), (String.eqb b ""); try apply normalize_nonempty. discriminate.
Qed.

Lemma find_lookup_Some name entries n :
  fs.lookup name entries = Some n ->
  List.find (fun file => String.eqb file name) entries.*1 = Some name.
Proof.
  induction entries as [|[f m] rest IH]; simpl; [discriminate|].
  destruct (String.eqb_spec f name) as [->|Hne]; [reflexivity|apply IH].
Qed.

Lemma find_lookup_None name entries :
  fs.lookup name entries = None ->
  List.find (fun file => String.eqb file name) entries.*1 = None.
Proof.
  induction entries as [|[f m] rest IH]; simpl; [reflexivity|].
  destruct (String.eqb_spec f name) as [->|Hne]; [discriminate|apply IH].
Qed.

(** [match] throws a system error for the empty path, whatever is looked
    for. *)
Lemma match_empty_position fragment here :
  match_ fragment "" here = JS.Throw (JS.SystemError "ENOENT" "").
Proof. reflexivity. Qed.

Lemma match_found fragment position entries child :
  position <> "" -> fragment <> "" ->
  fs.lookup fragment entries = Some child ->
  match_ fragment position (fs.Dir entries) = JS.Return fragment.
Proof.
  intros Hpos Hne Hl. unfold match_. rewrite (readdirSync_Dir _ _ Hpos). cbn [JS.bind].
  rewrite (find_lookup_Some _ _ _ Hl).
  apply String.eqb_neq in Hne. now rewrite Hne.
Qed.

Lemma match_not_found fragment position entries :
  position <> "" ->
  fs.lookup fragment entries = None \/ fragment = "" ->
  match_ fragment position (fs.Dir entries)
  = JS.Throw (JS.Error ("Could not find match for " ++ fragment ++ " in " ++ position)).
Proof.
  intros Hpos H. unfold match_. rewrite (readdirSync_Dir _ _ Hpos). cbn [JS.bind].
  destruct (fs.lookup fragment entries) as [child|] eqn:Hl.
  - rewrite (find_lookup_Some _ _ _ Hl). destruct H as [H| ->]; [discriminate|reflexivity].
  - now rewrite (find_lookup_None _ _ Hl).
Qed.

Lemma findFolder_step fragment s ss position entries children :
  position <> "" ->
  fragment <> "" ->
  fs.lookup fragment entries = Some (fs.Dir children) ->
  findFolder (fragment :: s :: ss) position (fs.Dir entries) =
  findFolder (s :: ss) (pathLib.join position fragment) (fs.Dir children).
Proof.
  intros Hpos Hne Hl. cbn [findFolder].
  rewrite (match_found _ _ _ _ Hpos Hne Hl). cbn [JS.bind].
  unfold statEntry. rewrite Hl. reflexivity.
Qed.

(** The loop takes the segments that [descend] follows, and goes on from
    the folder reached with those that remain. *)
Lemma findFolder_descend before after position here position' there :
  position <> "" ->
  descend before position here = Some (position', there) ->
  after <> [] ->
  findFolder (before ++ after) position here = findFolder after position' there.
Proof.
  revert position here.
  induction before as [|segment rest IH]; intros position here Hpos Hd Hafter; simpl in Hd.
  - now injection Hd as <- <-.
  - destruct here as [|entries| | |]; try discriminate.
    destruct (fs.lookup segment entries) as [[|children| | |]|] eqn:Hl; try discriminate.
    destruct (String.eqb_spec segment "") as [|Hne]; [discriminate|].
    rewrite <- (IH _ _ (join_nonempty _ _) Hd Hafter).
    destruct (rest ++ after)%list as [|s ss] eqn:Happ.
    { destruct rest; [contradiction|discriminate]. }
    change ((segment :: rest) ++ after)%list with (segment :: (rest ++ after)%list).
    rewrite Happ. now apply findFolder_step.
Qed.

Lemma descend_position before position here position' there :
  position <> "" ->
  descend before position here = Some (position', there) ->
  position' <> "".
Proof.
  revert position here.
  induction before as [|segment rest IH]; intros position here Hpos Hd; simpl in Hd.
  - now injection Hd as <- _.
  - destruct here as [|entries| | |]; try discriminate.
    destruct (fs.lookup segment entries) as [[|children| | |]|]; try discriminate.
    destruct (String.eqb segment ""); [discriminate|].
    apply (IH _ _ (join_nonempty _ _) Hd).
Qed.

Lemma findFolder_leaf leaf position here :
  findFolder [leaf] position here = JS.Return ([leaf], position, here).
Proof. reflexivity. Qed.

(** The walk to the folder of the last segment. *)
Lemma findFolder_walk path root tree before leaf position there :
  JS.split "/" (stripSlash path) = (before ++ [leaf])%list ->
  root <> "" ->
  descend before root tree = Some (position, there) ->
  findFolder (JS.split "/" (stripSlash path)) root tree = JS.Return ([leaf], position, there)
  /\ position <> "".
Proof.
  intros Hs Hroot Hd. split.
  - rewrite Hs, (findFolder_descend _ [leaf] _ _ _ _ Hroot Hd) by discriminate.
    apply findFolder_leaf.
  - exact (descend_position _ _ _ _ _ Hroot Hd).
Qed.

(** Under the empty root every call throws: the empty path names
    nothing. *)
Lemma findFolder_empty_root path tree :
  (exists e, findFolder path "" tree = JS.Throw e) \/
  (exists rest, findFolder path "" tree = JS.Return (rest, "", tree)).
Proof.
  destruct path as [|fragment [|s ss]].
  - right. now exists [].
  - right. now exists [fragment].
  - left. cbn [findFolder]. rewrite match_empty_position. cbn [JS.bind]. eauto.
Qed.

Lemma locateFilePath_empty_root E tree path queryParams :
  locateFilePath E tree path queryParams "" = JS.Throw (JS.SystemError "ENOENT" "").
Proof.
  unfold locateFilePath.
  destruct (JS.split "/" (stripSlash path)) as [|fragment [|s ss]]; reflexivity.
Qed.

(** C5.  When the folders named by the segments before [segment] exist and
    [segment], not the last one, names nothing in the folder they lead to,
    [locateFilePath] throws "Could not find match for ..."; when it names
    something that is not a directory, [locateFilePath] throws "match ...
    is not a directory" (an entry with the empty name counts as no match),
    or, for an entry that cannot be stat'ed, the error of [fs.statSync].
    Under the empty root, which names no folder, [fs.readdirSync] throws
    before any name is looked for.  A thrown error is never the
    [undefined] that answers a valid path without a matching file. *)
Theorem locateFilePath_lookup_error (E : ArraySort) (tree : fs.Node)
  (path : string) (queryParams : option Query) (root : string)
  (before : list string) (segment : string) (after : list string)
  (position : string) (entries : list (string * fs.Node)) :
  JS.split "/" (stripSlash path) = (before ++ segment :: after)%list ->
  after <> [] ->
  descend before root tree = Some (position, fs.Dir entries) ->
  (fs.lookup segment entries = None ->
   locateFilePath E tree path queryParams root =
   JS.Throw (if String.eqb root "" then JS.SystemError "ENOENT" ""
             else JS.Error ("Could not find match for " ++ segment ++ " in " ++ position))) /\
  (forall child,
      fs.lookup segment entries = Some child -> fs.isDirectory child = false ->
      locateFilePath E tree path queryParams root =
      JS.Throw (if String.eqb root "" then JS.SystemError "ENOENT" ""
                else if String.eqb segment ""
                then JS.Error ("Could not find match for " ++ segment ++ " in " ++ position)
                else match child with
                     | fs.NoStat code => JS.SystemError code (pathLib.join position segment)
                     | _ => JS.Error ("match " ++ pathLib.join position segment
                                      ++ " is not a directory")
                     end)) /\
  (forall e, locateFilePath E tree path queryParams root = JS.Throw e ->
             locateFilePath E tree path queryParams root <> JS.Return None).
Proof.
  intros Hsplit Hafter Hd.
  destruct (String.eqb_spec root "") as [->|Hroot].
  { rewrite locateFilePath_empty_root. repeat split; try reflexivity. discriminate. }
  assert (Hwalk : findFolder (JS.split "/" (stripSlash path)) root tree =
                  findFolder (segment :: after) position (fs.Dir entries)).
  { rewrite Hsplit. now apply findFolder_descend. }
  pose proof (descend_position _ _ _ _ _ Hroot Hd) as Hpos.
  destruct after as [|a after']; [contradiction|].
  split; [|split].
  - intros Hl. unfold locateFilePath. rewrite Hwalk.
    cbn [findFolder]. rewrite match_not_found by (try assumption; now left). reflexivity.
  - intros child Hl Hdir. unfold locateFilePath. rewrite Hwalk.
    cbn [findFolder]. destruct (String.eqb_spec segment "") as [->|Hne].
    + rewrite match_not_found by (try assumption; now right). reflexivity.
    + rewrite (match_found _ _ _ _ Hpos Hne Hl). cbn [JS.bind].
      unfold statEntry. rewrite Hl. destruct child; try discriminate; reflexivity.
  - intros e He. rewrite He. discriminate.
Qed.

(** [/path1/nowhere/resource] under a root holding [path1] only. *)
Lemma locateFilePath_lookup_error_witness :
  locateFilePath v8_timsort (fs.Dir [("path1", fs.Dir [("resource.json", fs.File)])])
    "/path1/nowhere/resource" None "mocks"
  = JS.Throw (JS.Error ("Could not find match for " ++ "nowhere" ++ " in " ++ "mocks/path1")).
Proof.
  refine (proj1 (locateFilePath_lookup_error v8_timsort
                   (fs.Dir [("path1", fs.Dir [("resource.json", fs.File)])])
                   "/path1/nowhere/resource" None "mocks"
                   ["path1"] "nowhere" ["resource"] "mocks/path1"
                   [("resource.json", fs.File)] _ _ _) _).
  - vm_compute. reflexivity.
  - discriminate.
  - vm_compute. reflexivity.
  - vm_compute. reflexivity.
Defined.

(** ** The files of the folder reached *)

Lemma parseFilename_nameStripped filename f :
  parseFilename filename = Some f -> nameStripped f = strippedName filename.
Proof.
  unfold parseFilename.
  destruct filename as [|c rest]; [now intros [= <-]|].
  destruct (Ascii.ascii_dec c ".") as [->|Hne]; [discriminate|].
  intros H.
  assert (Some f = Some {| parsed := pathLib.parse (String c rest);
                           nameStripped := strippedName (String c rest);
                           query := querystring.parse
                                      (JS.split "?" (pathLib.name (pathLib.parse (String c rest)))
                                         !! 1%nat) |}) as [= ->]; [|reflexivity].
  rewrite <- H. destruct c as [[] [] [] [] [] [] [] []]; try reflexivity. contradiction.
Qed.

Lemma filesOf_In position entries f :
  In f (filesOf position entries) <->
  exists name, In (name, fs.File) entries /\
               parseFilename (pathLib.join position name) = Some f.
Proof.
  unfold filesOf. rewrite <- list_elem_of_In, list_elem_of_omap. split.
  - intros ([name n] & Hin & Hparse). simpl in Hparse.
    destruct n; try discriminate. exists name. split; [|assumption].
    now apply list_elem_of_In.
  - intros (name & Hin & Hparse). exists (name, fs.File). split; [|assumption].
    now apply list_elem_of_In.
Qed.

Lemma parsedFiles_In position entries files f :
  parsedFiles position entries = JS.Return files ->
  In f files ->
  exists name, In (name, fs.File) entries /\
               parseFilename (pathLib.join position name) = Some f.
Proof.
  intros Hfiles Hin. apply parsedFiles_inv in Hfiles as [_ ->]. now apply filesOf_In.
Qed.

Lemma statable_forallb (entries : list (string * fs.Node)) :
  (forall name n, In (name, n) entries -> statable n = true) ->
  forallb (fun e => statable e.2) entries = true.
Proof.
  intros H. apply forallb_forall. intros [name n] Hin. simpl. apply (H name n).
  exact Hin.
Qed.




(** ** Hidden files *)

(** [parseFilename] looks at the first character of the path it is given,
    the folder's position joined with the entry's name. *)
Lemma parseFilename_hidden filename :
  parseFilename filename = None <-> exists rest, filename = String "." rest.
Proof.
  unfold parseFilename. destruct filename as [|c rest].
  - split; [discriminate|]. now intros [? ?].
  - destruct (Ascii.ascii_dec c ".") as [->|Hne].
    + split; [now exists rest|reflexivity].
    + split.
      * destruct c as [[] [] [] [] [] [] [] []]; try discriminate. contradiction.
      * intros [rest' [= -> _]]. contradiction.
Qed.

(** At the root [.], a request of one segment: the hidden file is left out. *)
Lemma hidden_file_at_dot_root (E : ArraySort) :
  locateFilePath E (fs.Dir [(".hidden.json", fs.File)]) "/.hidden" None "."
  = JS.Return None.
Proof. no_candidate. Qed.

(** Under a root that starts with a dot, such as [../mocks], every path
    starts with a dot and no file at all is a candidate. *)
Lemma dotted_root_hides_every_file (E : ArraySort) :
  locateFilePath E (fs.Dir [("resource.json", fs.File)]) "/resource" None "../mocks"
  = JS.Return None.
Proof. no_candidate. Qed.

(** C7.  What the code does with a hidden file when the path of the folder
    does not start with a dot: under the root [test_dirs] the file
    [.hidden.json] is parsed, scored and returned for [/.hidden], and so
    is [api/.secret.json] under the root [.] for [/api/.secret], on every
    engine.  [parseFilename] tests the first character of the joined path,
    not of the entry's name. *)
Theorem hidden_file_served :
  parseFilename (pathLib.join "test_dirs" ".hidden.json") <> None /\
  (forall E : ArraySort,
      locateFilePath E (fs.Dir [(".hidden.json", fs.File)]) "/.hidden" None "test_dirs"
      = JS.Return (Some "test_dirs/.hidden.json")) /\
  (forall E : ArraySort,
      locateFilePath E (fs.Dir [("api", fs.Dir [(".secret.json", fs.File)])])
        "/api/.secret" None "."
      = JS.Return (Some "api/.secret.json")).
Proof.
  split; [|split].
  - vm_compute. discriminate.
  - intros E. one_candidate.
  - intros E. one_candidate.
Qed.

(** ** The order of the matches *)

Lemma byCount_nonneg (a b : Scored) : 0 <= byCount a b.
Proof. unfold byCount. destruct (Qltb _ _); simpl; lia. Qed.

(** On V8's TimSort the comparator [a.count < b.count], never negative,
    sorts nothing: the first scored match in the order of the listing is
    the one returned. *)
Lemma locateFilePath_timsort tree path queryParams root :
  locateFilePath v8_timsort tree path queryParams root =
  JS.bind (candidates tree path queryParams root) (fun l => JS.Return (first l)).
Proof.
  rewrite locateFilePath_candidates.
  destruct (candidates tree path queryParams root) as [l|e]; [|reflexivity].
  simpl. now rewrite (TimSort_nonneg byCount byCount_nonneg).
Qed.

(** C1.  What the code does on V8's TimSort (Node 11 and later) with the
    claim's scenario: the three candidates score [1], [-1] and [2], and
    the file returned is [resource?a=1.json], the first listed of those
    that are left, not [resource?a=1&b=2.json]; in the folder of the
    repository's own test, listed in the order of [readdir], the request
    [?foo=bar] gets [resource.json], not [resource?foo=bar.json]. *)
Theorem scenario3_first_listed_returned :
  fuzzyEqual (Some scenario3_query) (querystring.parse (Some "a=1")) = inject_Z 1 /\
  fuzzyEqual (Some scenario3_query) (querystring.parse (Some "a=1&b=not2")) = inject_Z (-1) /\
  fuzzyEqual (Some scenario3_query) (querystring.parse (Some "a=1&b=2")) = inject_Z 2 /\
  locateFilePath v8_timsort scenario3_tree "/resource" (Some scenario3_query) "mocks"
  = JS.Return (Some "mocks/resource?a=1.json") /\
  locateFilePath v8_timsort scenario2_tree "/resource" (Some (queryOf [("foo", "bar")])) "mocks"
  = JS.Return (Some "mocks/resource.json").
Proof.
  repeat split; vm_compute; reflexivity.
Qed.

(** On V8's insertion sort the same comparator does sort: the matches come
    out by descending count. *)

Lemma ascending_cons x l :
  ascending (x :: l) <-> (forall y, In y l -> (count x <= count y)%Q) /\ ascending l.
Proof.
  split.
  - intros H. split.
    + intros y Hy. apply list_elem_of_In, list_elem_of_lookup in Hy as [j Hj].
      apply (H 0%nat (S j)); [lia|reflexivity|assumption].
    + intros i j a b Hij Ha Hb. apply (H (S i) (S j)); [lia|assumption..].
  - intros [Hx Hl] i j a b Hij Ha Hb.
    destruct j as [|j]; [lia|]. simpl in Hb.
    destruct i as [|i].
    + injection Ha as <-. apply Hx, list_elem_of_In, list_elem_of_lookup. eauto.
    + apply (Hl i j); [lia|assumption..].
Qed.

Lemma Qltb_false (x y : Q) : Qltb x y = false -> (y <= x)%Q.
Proof.
  unfold Qltb. intros H. apply negb_false_iff in H. now apply Qle_bool_iff.
Qed.

Lemma Qltb_true (x y : Q) : Qltb x y = true -> (x <= y)%Q.
Proof.
  unfold Qltb. intros H. apply negb_true_iff in H.
  apply Qlt_le_weak, Qnot_le_lt. intros Hle.
  apply Qle_bool_iff in Hle. congruence.
Qed.

Lemma insertLeft_ascending element prefix :
  ascending prefix -> ascending (V8.insertLeft byCount element prefix).
Proof.
  induction prefix as [|tmp rest IH]; intros Hasc; simpl.
  - apply ascending_cons. split; [intros y []|]. intros i j x y _ Hx. discriminate.
  - apply ascending_cons in Hasc as [Htmp Hrest].
    unfold byCount at 1. destruct (Qltb (count tmp) (count element)) eqn:Hlt; simpl.
    + apply ascending_cons. split; [|now apply IH].
      intros y Hy.
      apply (Permutation_in _ (insertLeft_Permutation byCount element rest)) in Hy.
      destruct Hy as [<-|Hy]; [now apply Qltb_true|now apply Htmp].
    + apply Qltb_false in Hlt.
      apply ascending_cons. split; [|now apply ascending_cons].
      intros y [<-|Hy]; [assumption|].
      eapply Qle_trans; [exact Hlt|now apply Htmp].
Qed.

Lemma fold_insertLeft_ascending l acc :
  ascending acc ->
  ascending (fold_left (fun prefix element => V8.insertLeft byCount element prefix) l acc).
Proof.
  revert acc. induction l as [|x r IH]; intros acc Hacc; simpl; [assumption|].
  apply IH. now apply insertLeft_ascending.
Qed.

Lemma InsertionSort_descending l m ms :
  V8.InsertionSort byCount l = m :: ms ->
  forall m', In m' l -> (count m' <= count m)%Q.
Proof.
  unfold V8.InsertionSort. intros Hrev m' Hin.
  set (prefix := fold_left (fun prefix element => V8.insertLeft byCount element prefix) l [])
    in *.
  assert (Hasc : ascending prefix).
  { subst prefix. apply fold_insertLeft_ascending. intros i j x y _ Hx. discriminate. }
  assert (Hm' : In m' prefix).
  { apply in_rev.
    exact (Permutation_in m' (Permutation_sym (InsertionSort_Permutation byCount l)) Hin). }
  assert (Hprefix : prefix = (rev ms ++ [m])%list).
  { rewrite <- (rev_involutive prefix), Hrev. reflexivity. }
  rewrite Hprefix in Hasc, Hm'.
  apply in_app_or in Hm' as [Hm'|[<-|[]]]; [|apply Qle_refl].
  apply list_elem_of_In, list_elem_of_lookup in Hm' as [i Hi].
  apply (Hasc i (length (rev ms))).
  - apply lookup_lt_Some in Hi. exact Hi.
  - now apply lookup_app_l_Some.
  - rewrite lookup_app_r by lia. now rewrite Nat.sub_diag.
Qed.

(** X16.  On the engines the package was written for (V8 before 7.0),
    with at most ten matches left, the file returned has the highest
    count. *)
Lemma locateFilePath_legacy_highest tree path queryParams root l :
  candidates tree path queryParams root = JS.Return l ->
  (length l <= 10)%nat ->
  l <> [] ->
  exists m, In m l /\
            locateFilePath v8_legacy tree path queryParams root
            = JS.Return (Some (format (item m))) /\
            forall m', In m' l -> (count m' <= count m)%Q.
Proof.
  intros Hl _ Hne. rewrite locateFilePath_candidates, Hl. simpl.
  destruct (V8.InsertionSort byCount l) as [|m ms] eqn:Hs.
  - exfalso. apply Hne. apply Permutation_nil.
    rewrite <- Hs. apply InsertionSort_Permutation.
  - exists m. split; [|split].
    + apply (Permutation_in m (InsertionSort_Permutation byCount l)).
      rewrite Hs. now left.
    + reflexivity.
    + now apply InsertionSort_descending with ms.
Qed.

Lemma scenario3_legacy :
  locateFilePath v8_legacy scenario3_tree "/resource" (Some scenario3_query) "mocks"
  = JS.Return (Some "mocks/resource?a=1&b=2.json").
Proof. vm_compute. reflexivity. Qed.

(** ** The middleware *)

Section MiddlewareFacts.

Context {Json : Type} (JSON_parse : string -> JS.Completion Json).
Context (E : ArraySort) (host : Host Json).

Lemma resolve_returns (process_cwd : JS.Completion string) p :
  pathLib.isAbsolute p = true \/ (exists d, process_cwd = JS.Return d) ->
  exists resolved, pathLib.resolve process_cwd p = JS.Return resolved.
Proof.
  unfold pathLib.resolve. intros [Habs|[d ->]].
  - rewrite Habs. eauto.
  - destruct (pathLib.isAbsolute p); simpl; eauto.
Qed.

(** With a host whose functions return, the calls the host receives
    depend on the request through [served] alone: one body and no
    [next()], or no body and one [next()]. *)
Lemma handle_outcome root logger logger' w req :
  (forall arguments, loggerResult host logger arguments = JS.Return tt) ->
  (forall arguments, loggerResult host logger' arguments = JS.Return tt) ->
  next_result host = JS.Return tt ->
  (forall data, res_json_result host data = JS.Return tt) ->
  (pathLib.isAbsolute (pathLib.join root (req_path req)) = true \/
   exists d, cwd w = JS.Return d) ->
  let result := handle JSON_parse E host root logger logger' w req in
  returned result = JS.Return tt /\
  (forall e, calledBack result <> Some (JS.Throw e)) /\
  responses (events result) = match served JSON_parse E root w req with
                              | Some data => [data]
                              | None => []
                              end /\
  nextCalls (events result) = match served JSON_parse E root w req with
                              | Some _ => 0%nat
                              | None => 1%nat
                              end.
Proof.
  intros Hlog Hlog' Hnext Hres Hcwd.
  apply resolve_returns in Hcwd as [resolved Hresolved].
  unfold handle, serveLocally_middleware, readFile_callback, served, callLogger, call.
  rewrite Hresolved, Hnext.
  destruct (locateFilePath E (tree w) (req_path req) (req_query req) root)
    as [[filePath|]|e]; cbn [lift tryCatchE ret bindE noFilePath app].
  - destruct (String.eqb filePath ""); cbn [lift tryCatchE ret bindE noFilePath app].
    + rewrite Hlog. cbn. repeat split; discriminate.
    + destruct (readFile w filePath) as [data|e]; cbn [lift tryCatchE ret bindE app].
      * destruct (JSON_parse data) as [parsed|e]; cbn [lift tryCatchE ret bindE app];
          rewrite Hlog'; cbn [lift tryCatchE ret bindE app]; rewrite ?Hres;
          cbn; repeat split; discriminate.
      * cbn. repeat split; discriminate.
  - rewrite Hlog. cbn. repeat split; discriminate.
  - rewrite Hlog. cbn. repeat split; discriminate.
Qed.

(** C9, amended.  While the module's logger returns when it is called,
    [next] and [res.json] return, and the working directory can be read
    (or the request's path under the root is absolute), the middleware
    does not throw, nor does its callback.  When [locateFilePath] throws,
    when it returns no file, when the file cannot be read and when its
    content does not parse, the host gets one call of [next()] and no
    body; a body goes to [res.json] only when resolution, read and parse
    all succeed, and then [next()] is not called. *)
Theorem serveLocally_middleware_falls_through root logger logger' w req :
  (forall arguments, loggerResult host logger arguments = JS.Return tt) ->
  (forall arguments, loggerResult host logger' arguments = JS.Return tt) ->
  next_result host = JS.Return tt ->
  (forall data, res_json_result host data = JS.Return tt) ->
  (pathLib.isAbsolute (pathLib.join root (req_path req)) = true \/
   exists d, cwd w = JS.Return d) ->
  let located := locateFilePath E (tree w) (req_path req) (req_query req) root in
  let result := handle JSON_parse E host root logger logger' w req in
  returned result = JS.Return tt /\
  (forall e, calledBack result <> Some (JS.Throw e)) /\
  (forall e, located = JS.Throw e ->
             nextCalls (events result) = 1%nat /\ responses (events result) = []) /\
  (located = JS.Return None ->
   nextCalls (events result) = 1%nat /\ responses (events result) = []) /\
  (forall filePath e,
      located = JS.Return (Some filePath) -> readFile w filePath = JS.Throw e ->
      nextCalls (events result) = 1%nat /\ responses (events result) = []) /\
  (forall filePath data e,
      located = JS.Return (Some filePath) -> readFile w filePath = JS.Return data ->
      JSON_parse data = JS.Throw e ->
      nextCalls (events result) = 1%nat /\ responses (events result) = []) /\
  (forall body, In body (responses (events result)) ->
      nextCalls (events result) = 0%nat /\
      exists filePath data,
        located = JS.Return (Some filePath) /\
        readFile w filePath = JS.Return data /\
        JSON_parse data = JS.Return body).
Proof.
  intros Hlog Hlog' Hnext Hjson Hcwd located result.
  destruct (handle_outcome root logger logger' w req Hlog Hlog' Hnext Hjson Hcwd)
    as (Hret & Hback & Hres & Hcalls).
  fold result in Hret, Hback, Hres, Hcalls.
  unfold served in Hres, Hcalls. fold located in Hres, Hcalls.
  split; [exact Hret|]. split; [exact Hback|].
  split; [|split; [|split; [|split]]].
  - intros e He. rewrite He in Hres, Hcalls. now split.
  - intros He. rewrite He in Hres, Hcalls. now split.
  - intros filePath e He Hread. rewrite He, Hread in Hres, Hcalls.
    destruct (String.eqb filePath ""); now split.
  - intros filePath data e He Hread Hparse. rewrite He, Hread, Hparse in Hres, Hcalls.
    destruct (String.eqb filePath ""); now split.
  - intros body Hbody. rewrite Hres in Hbody. rewrite Hcalls. clear Hres Hcalls.
    destruct located as [[filePath|]|e]; try contradiction.
    destruct (String.eqb filePath ""); [contradiction|].
    destruct (readFile w filePath) as [data|e] eqn:Hread; [|contradiction].
    destruct (JSON_parse data) as [parsed|e] eqn:Hparse; [|contradiction].
    destruct Hbody as [<-|[]]. split; [reflexivity|]. now exists filePath, data.
Qed.

End MiddlewareFacts.

(** [/other] under [mocks], which holds no such file, on a host whose
    functions return. *)
Lemma serveLocally_middleware_falls_through_witness :
  returned (handle parseText v8_timsort quietHost "mocks" consoleLog consoleLog mocksWorld
              {| req_path := "/other"; req_query := None |})
  = JS.Return tt.
Proof.
  refine (proj1 (serveLocally_middleware_falls_through parseText v8_timsort quietHost
                   "mocks" consoleLog consoleLog mocksWorld
                   {| req_path := "/other"; req_query := None |} _ _ _ _ _)).
  - intros arguments. reflexivity.
  - intros arguments. reflexivity.
  - reflexivity.
  - intros data. reflexivity.
  - right. exists "/srv". reflexivity.
Defined.

(** C9 as stated fails.  No file answers [/other]; the logger that the
    host supplied throws, outside any [try]: the error leaves the
    middleware and [next()] is never called.  With the working directory
    gone, [path.resolve] throws before the logger is called.  And when
    resolution, read and parse have all succeeded, a logger that throws
    in the callback of [fs.readFile] leaves the request without body and
    without [next()]. *)
Lemma serveLocally_middleware_logger_throws :
  locateFilePath v8_timsort (tree mocksWorld) "/other" None "mocks" = JS.Return None /\
  handle parseText v8_timsort failingLoggerHost "mocks"
    (loggerFunction "log") (loggerFunction "log") mocksWorld
    {| req_path := "/other"; req_query := None |}
  = {| events := [LoggerCall (loggerFunction "log")
                    [argString "Could not find match for"; argString "/srv/mocks/other"]];
       returned := JS.Throw (JS.Error "logger failed");
       calledBack := None |} /\
  handle parseText v8_timsort quietHost "mocks" noop noop noCwdWorld
    {| req_path := "/other"; req_query := None |}
  = {| events := [];
       returned := JS.Throw (JS.SystemError "ENOENT" "");
       calledBack := None |} /\
  handle parseText v8_timsort failingLoggerHost "mocks"
    (loggerFunction "log") (loggerFunction "log") mocksWorld
    {| req_path := "/resource"; req_query := None |}
  = {| events := [LoggerCall (loggerFunction "log")
                    [argString "Responding with data from";
                     argString "mocks/resource.json"]];
       returned := JS.Return tt;
       calledBack := Some (JS.Throw (JS.Error "logger failed")) |}.
Proof. repeat split; vm_compute; reflexivity. Qed.

(** * Further properties of the resolver *)

(** ** When [locateFilePath] throws *)

Lemma match_inv pathFragment currentDirectory here directory :
  match_ pathFragment currentDirectory here = JS.Return directory ->
  directory = pathFragment /\ pathFragment <> "" /\ currentDirectory <> "" /\
  exists entries child, here = fs.Dir entries /\ fs.lookup pathFragment entries = Some child.
Proof.
  unfold match_.
  destruct (fs.readdirSync currentDirectory here) as [entries|e] eqn:Hdir; [|discriminate].
  apply readdirSync_inv in Hdir as [Hpos ->]. cbn [JS.bind].
  destruct (fs.lookup pathFragment entries) as [child|] eqn:Hl.
  - rewrite (find_lookup_Some _ _ _ Hl).
    destruct (String.eqb_spec pathFragment "") as [->|Hne]; [discriminate|].
    intros [= <-]. repeat split; try assumption. now exists entries, child.
  - rewrite (find_lookup_None _ _ Hl). discriminate.
Qed.

(** What the loop returns, it reached by the folders the segments name. *)
Lemma findFolder_inv path position here rest position' entries :
  findFolder path position here = JS.Return (rest, position', fs.Dir entries) ->
  path <> [] ->
  exists before leaf,
    path = (before ++ [leaf])%list /\ rest = [leaf] /\
    descend before position here = Some (position', fs.Dir entries).
Proof.
  revert position here.
  induction path as [|fragment path IH]; intros position here Hf Hne; [contradiction|].
  destruct path as [|s ss].
  - injection Hf as <- <- ->. now exists [], fragment.
  - cbn [findFolder] in Hf.
    destruct (match_ fragment position here) as [directory|e] eqn:Hm; [|discriminate].
    apply match_inv in Hm as (-> & Hfrag & _ & entries0 & child & -> & Hl).
    cbn [JS.bind] in Hf. unfold statEntry in Hf. rewrite Hl in Hf.
    destruct (fs.statSync _ child) as [stats|e] eqn:Hstat; [|discriminate].
    apply statSync_inv in Hstat as [_ ->]. cbn [JS.bind] in Hf.
    destruct (fs.isDirectory child) eqn:Hdir; [|discriminate].
    destruct (IH _ _ Hf) as (before & leaf & Hpath & Hrest & Hd); [discriminate|].
    exists (fragment :: before), leaf. rewrite Hpath. repeat split; [assumption|].
    simpl. rewrite Hl. apply String.eqb_neq in Hfrag.
    destruct child; try discriminate.
    + now rewrite Hfrag.
    + destruct before; discriminate.
Qed.

Lemma split_nonempty sep s : JS.split sep s <> [].
Proof.
  destruct s as [|c s]; simpl; [discriminate|].
  destruct (Ascii.eqb c sep); [discriminate|]. now destruct (JS.split sep s).
Qed.

Lemma forallb_statable (entries : list (string * fs.Node)) :
  forallb (fun e => statable e.2) entries = true ->
  forall name n, In (name, n) entries -> statable n = true.
Proof.
  intros H name n Hin. rewrite forallb_forall in H. exact (H (name, n) Hin).
Qed.

(** What a call that returns has gone through: a root that is not
    empty, the folders named by the segments before the last, and the
    [stat] of every entry of the folder reached. *)
Lemma candidates_walk tree path queryParams root l :
  candidates tree path queryParams root = JS.Return l ->
  root <> "" /\
  exists before leaf position entries files,
    JS.split "/" (stripSlash path) = (before ++ [leaf])%list /\
    descend before root tree = Some (position, fs.Dir entries) /\
    parsedFiles position entries = JS.Return files /\
    l = scoredMatches queryParams (Some leaf) files.
Proof.
  intros Hc. split.
  - intros ->. pose proof (locateFilePath_empty_root v8_timsort tree path queryParams) as He.
    rewrite locateFilePath_candidates, Hc in He. discriminate.
  - apply candidates_inv in Hc as (rest & position & entries & files & Hf & _ & Hfiles & ->).
    apply findFolder_inv in Hf as (before & leaf & Hs & -> & Hd); [|apply split_nonempty].
    now exists before, leaf, position, entries, files.
Qed.

Lemma candidates_reached tree path queryParams root before leaf position entries files :
  JS.split "/" (stripSlash path) = (before ++ [leaf])%list ->
  root <> "" ->
  descend before root tree = Some (position, fs.Dir entries) ->
  parsedFiles position entries = JS.Return files ->
  candidates tree path queryParams root
  = JS.Return (scoredMatches queryParams (Some leaf) files).
Proof.
  intros Hs Hroot Hd Hfiles.
  destruct (findFolder_walk _ _ _ _ _ _ _ Hs Hroot Hd) as [Hwalk Hpos].
  now rewrite (candidates_folder _ _ _ _ _ _ _ _ Hwalk Hpos Hfiles).
Qed.

(** X1.  [locateFilePath] returns, a file or [undefined], exactly when
    the root is not the empty string, the segments before the last lead,
    folder by folder, to a directory that can be listed, and every entry
    of that directory can be stat'ed; it throws in every other case, and
    so for every request into a folder that holds a link to nothing. *)
Theorem locateFilePath_returns_iff (E : ArraySort) (tree : fs.Node)
  (path : string) (queryParams : option Query) (root : string) :
  (exists result, locateFilePath E tree path queryParams root = JS.Return result) <->
  root <> "" /\
  exists before leaf position entries,
    JS.split "/" (stripSlash path) = (before ++ [leaf])%list /\
    descend before root tree = Some (position, fs.Dir entries) /\
    forall name n, In (name, n) entries -> statable n = true.
Proof.
  split.
  - intros [result Hr]. rewrite locateFilePath_candidates in Hr.
    destruct (candidates tree path queryParams root) as [l|e] eqn:Hc; [|discriminate].
    apply candidates_walk in Hc
      as (Hroot & before & leaf & position & entries & files & Hs & Hd & Hfiles & _).
    split; [assumption|]. exists before, leaf, position, entries.
    split; [assumption|]. split; [assumption|].
    apply forallb_statable. now apply parsedFiles_inv in Hfiles as [Hall _].
  - intros (Hroot & before & leaf & position & entries & Hs & Hd & Hstat).
    rewrite locateFilePath_candidates.
    rewrite (candidates_reached _ _ _ _ _ _ _ _ _ Hs Hroot Hd
               (parsedFiles_statable _ _ (statable_forallb _ Hstat))).
    simpl. eauto.
Qed.

(** ** When [locateFilePath] finds nothing *)

(** X2.  On every engine, [locateFilePath] returns [undefined] exactly
    when the root is not the empty string, the walk ends in a directory
    that can be listed, every entry of it can be stat'ed, and each parsed
    file of it that has the last segment for its stripped name is scored
    [-1]. *)
Theorem locateFilePath_undefined_iff (E : ArraySort) (tree : fs.Node)
  (path : string) (queryParams : option Query) (root : string) :
  locateFilePath E tree path queryParams root = JS.Return None <->
  root <> "" /\
  exists before leaf position entries files,
    JS.split "/" (stripSlash path) = (before ++ [leaf])%list /\
    descend before root tree = Some (position, fs.Dir entries) /\
    parsedFiles position entries = JS.Return files /\
    forall f, In f files -> nameStripped f = leaf ->
              (fuzzyEqual queryParams (query f) == inject_Z (-1))%Q.
Proof.
  split.
  - intros Hr. rewrite locateFilePath_candidates in Hr.
    destruct (candidates tree path queryParams root) as [l|e] eqn:Hc; [|discriminate].
    simpl in Hr. destruct (sort E byCount l) as [|m ms] eqn:Hs; [|discriminate].
    assert (l = []) as ->.
    { apply Permutation_nil. rewrite <- Hs. apply sort_Permutation. }
    apply candidates_walk in Hc
      as (Hroot & before & leaf & position & entries & files & Hsplit & Hd & Hfiles & Hnil).
    split; [assumption|]. exists before, leaf, position, entries, files.
    repeat split; try assumption.
    intros f Hin Hname.
    destruct (Qeq_dec (fuzzyEqual queryParams (query f)) (inject_Z (-1))) as [|Hne];
      [assumption|]. exfalso.
    assert (Hm : In {| item := f; count := fuzzyEqual queryParams (query f) |}
                   (scoredMatches queryParams (Some leaf) files)).
    { apply scoredMatches_In. simpl. repeat split; try assumption. now rewrite Hname. }
    rewrite <- Hnil in Hm. destruct Hm.
  - intros (Hroot & before & leaf & position & entries & files & Hs & Hd & Hfiles & Hall).
    apply locateFilePath_none.
    rewrite (candidates_reached _ _ _ _ _ _ _ _ _ Hs Hroot Hd Hfiles). f_equal.
    destruct (scoredMatches _ _ _) as [|m ms] eqn:Hm; [reflexivity|]. exfalso.
    assert (Hin : In m (scoredMatches queryParams (Some leaf) files))
      by (rewrite Hm; now left).
    apply scoredMatches_In in Hin as (Hin & Hleaf & Hcount & Hne).
    apply Hne. rewrite Hcount. apply Hall; [assumption|].
    congruence.
Qed.

(** ** The values a score takes *)

Lemma filter_length_all {A} (f : A -> bool) (l : list A) :
  length (List.filter f l) = length l -> forall x, In x l -> f x = true.
Proof.
  induction l as [|y l IH]; simpl; [intros _ x []|].
  pose proof (List.filter_length_le f l) as Hle.
  destruct (f y) eqn:Hy; simpl; intros Hlen x [<-|Hx]; try assumption; try lia.
  apply IH; [lia|assumption].
Qed.

Lemma fuzzyLoop_bound (actual matching : Query) c :
  fuzzyLoop (map_to_list actual) matching 0 = Some c ->
  0 <= c <= Z.of_nat (size actual).
Proof.
  rewrite fuzzyLoop_spec. destruct (existsb _ _); [discriminate|]. intros [= <-].
  pose proof (List.filter_length_le (agrees matching) (map_to_list actual)) as Hle.
  rewrite length_map_to_list in Hle. lia.
Qed.

(** X3.  Without a request object a score is [-1] or [0].  With one
    it is one half or an integer: [-1], or a count between [0] and the
    number of keys of the request.  No score lies strictly between [0]
    and one half. *)
Theorem fuzzyEqual_values (actual : option Query) (matching : Query) :
  match actual with
  | None =>
      fuzzyEqual None matching = inject_Z (-1) \/ fuzzyEqual None matching = inject_Z 0
  | Some request =>
      fuzzyEqual (Some request) matching = 1 # 2 \/
      exists n : Z,
        fuzzyEqual (Some request) matching = inject_Z n /\
        -1 <= n <= Z.of_nat (size request)
  end.
Proof.
  destruct actual as [a|]; simpl.
  - destruct (fuzzyLoop (map_to_list a) matching 0) as [c|] eqn:Hloop.
    + apply fuzzyLoop_bound in Hloop.
      destruct ((0 <? c) && _) eqn:Hpen.
      * apply andb_true_iff in Hpen as [_ Hmore]. apply Z.ltb_lt in Hmore.
        set (temp := c - _).
        unfold Qmax, GenericMinMax.gmax.
        destruct (inject_Z temp ?= 1 # 2)%Q eqn:Hcmp; [right| now left |right];
          unfold Qcompare in Hcmp; simpl in Hcmp;
          exists temp; (split; [reflexivity|]); subst temp.
        -- apply Z.compare_eq in Hcmp. lia.
        -- apply Z.compare_gt_iff in Hcmp. lia.
      * right. exists c. split; [reflexivity|lia].
    + right. exists (-1). split; [reflexivity|lia].
  - destruct (JS.arrayLooseEqZero (keys matching)); [now right|now left].
Qed.

Lemma fuzzyEqual_upper (actual matching : Query) :
  (fuzzyEqual (Some actual) matching <= inject_Z (Z.of_nat (size actual)))%Q.
Proof.
  unfold fuzzyEqual.
  destruct (fuzzyLoop (map_to_list actual) matching 0) as [c|] eqn:Hloop.
  - apply fuzzyLoop_bound in Hloop.
    destruct ((0 <? c) && _) eqn:Hpen.
    + apply andb_true_iff in Hpen as [Hc Hmore].
      apply Z.ltb_lt in Hc, Hmore. rewrite !keys_length in *.
      apply Q.max_lub; [rewrite <- Zle_Qle; lia|unfold Qle; simpl; lia].
    + rewrite <- Zle_Qle. lia.
  - rewrite <- Zle_Qle. lia.
Qed.

(** ** The exact candidate *)

Lemma fuzzyLoop_all_agree (actual matching : Query) :
  fuzzyLoop (map_to_list actual) matching 0 = Some (Z.of_nat (size actual)) ->
  forall key v, actual !! key = Some v ->
                exists mv, matching !! key = Some mv /\
                           JS.falsy mv = false /\ JS.looseEq mv v = true.
Proof.
  rewrite fuzzyLoop_spec. destruct (existsb _ _); [discriminate|]. intros [= Hlen].
  intros key v Hkey.
  assert (Hagree : agrees matching (key, v) = true).
  { apply (filter_length_all (agrees matching) (map_to_list actual)).
    - rewrite length_map_to_list. lia.
    - now apply list_elem_of_In, elem_of_map_to_list. }
  unfold agrees in Hagree. simpl in Hagree.
  destruct (matching !! key) as [mv|]; [|discriminate].
  apply andb_true_iff in Hagree as [Hf Hl]. apply negb_true_iff in Hf. now exists mv.
Qed.

(** X4.  For a request whose values are non-empty strings, the candidate
    whose parsed query is the request's own scores the number of keys,
    no candidate scores more, and a candidate that scores as much (the
    request not being empty) has exactly the request's keys, each with a
    value equal ([==]) to the request's. *)
Theorem fuzzyEqual_exact (actual : Query) :
  (forall key v, actual !! key = Some v -> exists s, v = JS.VStr s /\ s <> "") ->
  fuzzyEqual (Some actual) actual = inject_Z (Z.of_nat (size actual)) /\
  (forall matching,
      (fuzzyEqual (Some actual) matching <= inject_Z (Z.of_nat (size actual)))%Q) /\
  (forall matching,
      (0 < size actual)%nat ->
      (fuzzyEqual (Some actual) matching == inject_Z (Z.of_nat (size actual)))%Q ->
      dom matching = dom actual /\
      forall key v, actual !! key = Some v ->
                    exists mv, matching !! key = Some mv /\ JS.looseEq mv v = true).
Proof.
  intros Hvalues. split; [|split].
  - unfold fuzzyEqual. rewrite fuzzyLoop_spec.
    assert (Hall : forall e, In e (map_to_list actual) ->
                             mismatch actual e = false /\ agrees actual e = true).
    { intros [key v] He. apply list_elem_of_In, elem_of_map_to_list in He.
      destruct (Hvalues _ _ He) as (s & -> & Hs).
      unfold mismatch, agrees. simpl. rewrite He. simpl.
      apply String.eqb_neq in Hs. rewrite Hs, String.eqb_refl. now split. }
    replace (existsb (mismatch actual) (map_to_list actual)) with false.
    2:{ symmetry. apply not_true_is_false. intros Hex.
        apply existsb_exists in Hex as (e & He & Hm).
        destruct (Hall e He) as [Hm' _]. congruence. }
    replace (List.filter (agrees actual) (map_to_list actual)) with (map_to_list actual).
    2:{ symmetry. apply forallb_filter_id. apply forallb_forall. intros e He.
        now destruct (Hall e He). }
    rewrite length_map_to_list, Z.ltb_irrefl, andb_false_r. reflexivity.
  - intros matching. apply fuzzyEqual_upper.
  - intros matching Hpos Heq.
    assert (Hloop : fuzzyLoop (map_to_list actual) matching 0 = Some (Z.of_nat (size actual)) /\
                    (size matching <= size actual)%nat).
    { unfold fuzzyEqual in Heq.
      destruct (fuzzyLoop (map_to_list actual) matching 0) as [c|] eqn:Hc.
      2:{ revert Heq. unfold Qeq. simpl. lia. }
      pose proof (fuzzyLoop_bound _ _ _ Hc) as Hb. rewrite !keys_length in Heq.
      destruct ((0 <? c) && _) eqn:Hpen.
      - exfalso. apply andb_true_iff in Hpen as [Hc0 Hmore].
        apply Z.ltb_lt in Hc0, Hmore.
        destruct (Q.max_spec (inject_Z (c - (Z.of_nat (size matching) - Z.of_nat (size actual))))
                    (1 # 2)) as [[_ Hmax]|[_ Hmax]];
          rewrite Hmax in Heq; revert Heq; unfold Qeq; simpl; lia.
      - apply andb_false_iff in Hpen.
        assert (c = Z.of_nat (size actual)) as -> by (revert Heq; unfold Qeq; simpl; lia).
        split; [reflexivity|].
        destruct Hpen as [Hp|Hp]; [apply Z.ltb_ge in Hp; lia|apply Z.ltb_ge in Hp; lia]. }
    destruct Hloop as [Hloop Hsize].
    pose proof (fuzzyLoop_all_agree _ _ Hloop) as Hagree.
    split.
    + symmetry. apply set_subseteq_size_eq.
      * intros key Hkey. apply elem_of_dom in Hkey as [v Hv].
        destruct (Hagree _ _ Hv) as (mv & Hmv & _). apply elem_of_dom. eauto.
      * rewrite !size_dom. exact Hsize.
    + intros key v Hv. destruct (Hagree _ _ Hv) as (mv & Hmv & _ & Hl). eauto.
Qed.

(** The request [?a=1&b=2] against the candidate named [...?a=1&b=2]. *)
Lemma fuzzyEqual_exact_witness :
  fuzzyEqual (Some (queryOf [("a", "1"); ("b", "2")])) (queryOf [("a", "1"); ("b", "2")])
  = inject_Z (Z.of_nat (size (queryOf [("a", "1"); ("b", "2")]))).
Proof.
  refine (proj1 (fuzzyEqual_exact (queryOf [("a", "1"); ("b", "2")]) _)).
  intros key v Hkey.
  destruct (decide (key = "a")) as [->|Ha].
  - vm_compute in Hkey. injection Hkey as <-. exists "1". split; [reflexivity|discriminate].
  - destruct (decide (key = "b")) as [->|Hb].
    + vm_compute in Hkey. injection Hkey as <-. exists "2". split; [reflexivity|discriminate].
    + unfold queryOf in Hkey. simpl in Hkey.
      rewrite !lookup_insert_ne, lookup_empty in Hkey by congruence. discriminate.
Defined.

(** ** Files that are always candidates *)

(** A parsed file of the folder reached that has the last segment for
    its stripped name and is not scored [-1]: some file is returned. *)
Lemma locateFilePath_survivor (E : ArraySort) tree path queryParams root
  before leaf position entries files f :
  JS.split "/" (stripSlash path) = (before ++ [leaf])%list ->
  root <> "" ->
  descend before root tree = Some (position, fs.Dir entries) ->
  parsedFiles position entries = JS.Return files ->
  In f files ->
  nameStripped f = leaf ->
  ~ (fuzzyEqual queryParams (query f) == inject_Z (-1))%Q ->
  exists p, locateFilePath E tree path queryParams root = JS.Return (Some p).
Proof.
  intros Hs Hroot Hd Hfiles Hin Hname Hscore.
  rewrite locateFilePath_candidates,
    (candidates_reached _ _ _ _ _ _ _ _ _ Hs Hroot Hd Hfiles).
  cbn [JS.bind].
  set (l := scoredMatches queryParams (Some leaf) files).
  assert (Hm : In {| item := f; count := fuzzyEqual queryParams (query f) |} l).
  { apply scoredMatches_In. simpl. repeat split; try assumption. now rewrite Hname. }
  destruct (sort E byCount l) as [|m ms] eqn:Hsort.
  - exfalso. assert (l = []) as Hnil.
    { apply Permutation_nil. rewrite <- Hsort. apply sort_Permutation. }
    rewrite Hnil in Hm. destruct Hm.
  - simpl. eauto.
Qed.

Lemma filter_none {A} (f : A -> bool) (l : list A) :
  (forall x, f x = false) -> List.filter f l = [].
Proof.
  intros Hf. induction l as [|x l IH]; simpl; [reflexivity|]. now rewrite Hf.
Qed.

Lemma fuzzyEqual_no_candidate_query (queryParams : option Query) :
  fuzzyEqual queryParams ∅ = inject_Z 0.
Proof.
  destruct queryParams as [actual|]; [|reflexivity].
  unfold fuzzyEqual. rewrite fuzzyLoop_spec.
  replace (existsb (mismatch ∅) (map_to_list actual)) with false.
  2:{ symmetry. apply not_true_is_false. intros Hex.
      apply existsb_exists in Hex as ([k v] & _ & Hm).
      unfold mismatch in Hm. simpl in Hm. rewrite lookup_empty in Hm. discriminate. }
  replace (List.filter (agrees ∅) (map_to_list actual)) with (@nil (string * JS.Value)).
  2:{ symmetry. apply filter_none.
      intros [k v]. unfold agrees. simpl. now rewrite lookup_empty. }
  reflexivity.
Qed.

(** X5.  A file whose name carries no query is never excluded: it scores
    [0] against every request, and when the folder reached (under a root
    that is not the empty string, every entry stat'ed) holds such a file
    with the last segment for its stripped name, [locateFilePath] returns
    a file, whatever the query and the engine. *)
Theorem locateFilePath_default_file (E : ArraySort) (tree : fs.Node)
  (path : string) (queryParams : option Query) (root : string)
  (before : list string) (leaf position : string)
  (entries : list (string * fs.Node)) (files : list ParsedFile) (f : ParsedFile) :
  JS.split "/" (stripSlash path) = (before ++ [leaf])%list ->
  root <> "" ->
  descend before root tree = Some (position, fs.Dir entries) ->
  parsedFiles position entries = JS.Return files ->
  In f files ->
  nameStripped f = leaf ->
  query f = ∅ ->
  fuzzyEqual queryParams (query f) = inject_Z 0 /\
  exists p, locateFilePath E tree path queryParams root = JS.Return (Some p).
Proof.
  intros Hs Hroot Hd Hfiles Hin Hname Hq. rewrite Hq, fuzzyEqual_no_candidate_query.
  split; [reflexivity|].
  apply (locateFilePath_survivor E tree path queryParams root before leaf position entries
           files f); try assumption.
  rewrite Hq, fuzzyEqual_no_candidate_query. discriminate.
Qed.

(** [resource.json], listed after a directory and before a file of
    another name, for a request carrying [?x=1]. *)
Lemma locateFilePath_default_file_witness :
  fuzzyEqual (Some (queryOf [("x", "1")])) ∅ = inject_Z 0 /\
  exists p,
    locateFilePath v8_timsort
      (fs.Dir [("path1", fs.Dir []); ("resource.json", fs.File); ("users.json", fs.File)])
      "/resource" (Some (queryOf [("x", "1")])) "mocks"
    = JS.Return (Some p).
Proof.
  refine (locateFilePath_default_file v8_timsort
            (fs.Dir [("path1", fs.Dir []); ("resource.json", fs.File); ("users.json", fs.File)])
            "/resource" (Some (queryOf [("x", "1")])) "mocks" [] "resource" "mocks"
            [("path1", fs.Dir []); ("resource.json", fs.File); ("users.json", fs.File)]
            (omap parseFilename ["mocks/resource.json"; "mocks/users.json"])
            {| parsed := pathLib.parse "mocks/resource.json";
               nameStripped := "resource"; query := ∅ |} _ _ _ _ _ _ _).
  - vm_compute. reflexivity.
  - discriminate.
  - vm_compute. reflexivity.
  - vm_compute. reflexivity.
  - vm_compute. left. reflexivity.
  - reflexivity.
  - reflexivity.
Defined.

(** X6.  With the empty object for the query, which is not falsy, no
    candidate is excluded: a file is returned as soon as the folder
    reached (under a root that is not the empty string, every entry
    stat'ed) holds a parsed file with the last segment for its stripped
    name, whatever query its name carries. *)
Theorem locateFilePath_empty_query (E : ArraySort) (tree : fs.Node)
  (path root : string) (before : list string) (leaf position : string)
  (entries : list (string * fs.Node)) (files : list ParsedFile) (f : ParsedFile) :
  JS.split "/" (stripSlash path) = (before ++ [leaf])%list ->
  root <> "" ->
  descend before root tree = Some (position, fs.Dir entries) ->
  parsedFiles position entries = JS.Return files ->
  In f files ->
  nameStripped f = leaf ->
  fuzzyEqual (Some ∅) (query f) = inject_Z 0 /\
  exists p, locateFilePath E tree path (Some ∅) root = JS.Return (Some p).
Proof.
  intros Hs Hroot Hd Hfiles Hin Hname. rewrite fuzzyEqual_empty_request.
  split; [reflexivity|].
  apply (locateFilePath_survivor E tree path (Some ∅) root before leaf position entries
           files f); try assumption.
  rewrite fuzzyEqual_empty_request. discriminate.
Qed.

(** [resource?x=1.json] for a request whose query object is empty. *)
Lemma locateFilePath_empty_query_witness :
  fuzzyEqual (Some ∅) (querystring.parse (Some "x=1")) = inject_Z 0 /\
  exists p,
    locateFilePath v8_timsort (fs.Dir [("resource?x=1.json", fs.File)]) "/resource"
      (Some ∅) "mocks"
    = JS.Return (Some p).
Proof.
  refine (locateFilePath_empty_query v8_timsort (fs.Dir [("resource?x=1.json", fs.File)])
            "/resource" "mocks" [] "resource" "mocks"
            [("resource?x=1.json", fs.File)]
            (omap parseFilename ["mocks/resource?x=1.json"])
            {| parsed := pathLib.parse "mocks/resource?x=1.json";
               nameStripped := "resource"; query := querystring.parse (Some "x=1") |}
            _ _ _ _ _ _).
  - vm_compute. reflexivity.
  - discriminate.
  - vm_compute. reflexivity.
  - vm_compute. reflexivity.
  - vm_compute. left. reflexivity.
  - reflexivity.
Defined.

(** ** Without a query object *)

(** X7.  With [null] or [undefined] for the query, a candidate whose
    parsed query is empty scores [0]; one with two keys or more scores
    [-1]; one with a single key scores [0] when that key converts to the
    number zero and [-1] otherwise. *)
Theorem fuzzyEqual_no_query_cases (matching : Query) :
  (matching = ∅ -> fuzzyEqual None matching = inject_Z 0) /\
  (forall key v, matching = {[ key := v ]} ->
                 fuzzyEqual None matching =
                 if JS.StringToNumber_isZero key then inject_Z 0 else inject_Z (-1)) /\
  ((2 <= size matching)%nat -> fuzzyEqual None matching = inject_Z (-1)).
Proof.
  split; [|split].
  - intros ->. reflexivity.
  - intros key v ->. unfold fuzzyEqual, keys. rewrite map_to_list_singleton. reflexivity.
  - intros Hsize. unfold fuzzyEqual.
    rewrite <- keys_length in Hsize.
    destruct (keys matching) as [|k1 [|k2 ks]]; simpl in Hsize; try lia.
    now rewrite arrayLooseEqZero_several.
Qed.

(** ** The path of the file returned *)

Lemma chars_app s1 s2 :
  list_ascii_of_string (s1 ++ s2) = (list_ascii_of_string s1 ++ list_ascii_of_string s2)%list.
Proof. induction s1 as [|c s1 IH]; simpl; [reflexivity|]. now f_equal. Qed.

Lemma string_app (l1 l2 : list ascii) :
  string_of_list_ascii (l1 ++ l2)%list = string_of_list_ascii l1 ++ string_of_list_ascii l2.
Proof. induction l1 as [|c l1 IH]; simpl; [reflexivity|]. now rewrite IH. Qed.

Lemma append_assoc (a b c : string) : (a ++ b) ++ c = a ++ (b ++ c).
Proof.
  induction a as [|x a IH]; [reflexivity|].
  change (String x ((a ++ b) ++ c) = String x (a ++ (b ++ c))). now rewrite IH.
Qed.

Lemma append_empty_r (a : string) : a ++ "" = a.
Proof.
  induction a as [|x a IH]; [reflexivity|].
  change (String x (a ++ "") = String x a). now rewrite IH.
Qed.

Lemma split_no_separator sep s :
  existsb (Ascii.eqb sep) (list_ascii_of_string s) = false -> JS.split sep s = [s].
Proof.
  induction s as [|c s IH]; simpl; [reflexivity|].
  intros H. apply orb_false_iff in H as [Hc Hs].
  rewrite Ascii.eqb_sym, Hc, (IH Hs). reflexivity.
Qed.

Lemma split_app sep a b :
  JS.split sep (a ++ String sep b) = (JS.split sep a ++ JS.split sep b)%list.
Proof.
  induction a as [|c a IH]; simpl.
  - now rewrite Ascii.eqb_refl.
  - destruct (Ascii.eqb c sep); [now rewrite IH|].
    rewrite IH. pose proof (split_nonempty sep a) as Hne.
    destruct (JS.split sep a) as [|w ws]; [contradiction|reflexivity].
Qed.

(** Where [normalizeSegments] stands after the segments [S]. *)
Lemma normalizeSegments_app allow S acc :
  Forall (fun s => s <> "") acc ->
  exists acc',
    Forall (fun s => s <> "") acc' /\
    forall T, pathLib.normalizeSegments allow acc (S ++ T)
              = pathLib.normalizeSegments allow acc' T.
Proof.
  revert acc. induction S as [|s S IH]; intros acc Hacc.
  - now exists acc.
  - cbn [app pathLib.normalizeSegments].
    destruct (String.eqb s "" || String.eqb s ".") eqn:Hdot; [now apply IH|].
    destruct (String.eqb s "..") eqn:Hdd.
    + destruct acc as [|last acc'].
      * apply IH. destruct allow; repeat constructor. discriminate.
      * destruct (String.eqb last "..").
        -- apply IH. destruct allow; [|assumption]. constructor; [discriminate|assumption].
        -- apply IH. now inversion Hacc.
    + apply IH. constructor; [|assumption].
      apply orb_false_iff in Hdot as [Hs _]. now apply String.eqb_neq.
Qed.

Lemma entryName_inv name :
  entryName name = true ->
  name <> "" /\ existsb pathLib.isSlash (list_ascii_of_string name) = false /\
  name <> "." /\ name <> "..".
Proof.
  unfold entryName. rewrite !andb_true_iff, !negb_true_iff.
  intros [[[H1 H2] H3] H4]. repeat split; try assumption; now apply String.eqb_neq.
Qed.

Lemma concat_snoc (l : list string) (name : string) :
  String.concat "/" (l ++ [name]) =
  match l with
  | [] => name
  | _ => String.concat "/" l ++ "/" ++ name
  end.
Proof.
  induction l as [|x l IH]; [reflexivity|].
  destruct l as [|y l]; [reflexivity|].
  change (String.concat "/" ((x :: y :: l) ++ [name]))
    with (x ++ "/" ++ String.concat "/" ((y :: l) ++ [name])).
  rewrite IH.
  change (String.concat "/" (x :: y :: l)) with (x ++ "/" ++ String.concat "/" (y :: l)).
  now rewrite !append_assoc.
Qed.

Lemma concat_nonempty (l : list string) :
  l <> [] -> Forall (fun s => s <> "") l -> String.concat "/" l <> "".
Proof.
  destruct l as [|x l]; [contradiction|]. intros _ Hall.
  inversion Hall as [|? ? Hx _]; subst.
  destruct x as [|c x]; [contradiction|].
  destruct l; simpl; discriminate.
Qed.

Lemma split_components sep s :
  Forall (fun w => existsb (Ascii.eqb sep) (list_ascii_of_string w) = false) (JS.split sep s).
Proof.
  induction s as [|c s IH]; simpl; [now repeat constructor|].
  destruct (Ascii.eqb c sep) eqn:Hc; [now constructor|].
  destruct (JS.split sep s) as [|w ws]; [now repeat constructor; simpl; rewrite Ascii.eqb_sym, Hc|].
  inversion IH as [|? ? Hw Hws]; subst. constructor; [|assumption].
  simpl. now rewrite Ascii.eqb_sym, Hc.
Qed.

Lemma normalizeSegments_plain allow S acc :
  Forall (fun s => s = "" \/ plain s) S ->
  Forall plain acc ->
  exists acc',
    Forall plain acc' /\
    forall T, pathLib.normalizeSegments allow acc (S ++ T)
              = pathLib.normalizeSegments allow acc' T.
Proof.
  revert acc. induction S as [|s S IH]; intros acc HS Hacc.
  - now exists acc.
  - inversion HS as [|? ? Hs HS']; subst.
    cbn [app pathLib.normalizeSegments].
    destruct (String.eqb s "" || String.eqb s ".") eqn:Hdot; [now apply IH|].
    destruct (String.eqb s "..") eqn:Hdd.
    + destruct acc as [|last acc'].
      * apply IH; [assumption|]. destruct allow; repeat constructor. discriminate.
      * destruct (String.eqb last "..").
        -- apply IH; [assumption|]. destruct allow; [|assumption].
           constructor; [split; [discriminate|reflexivity]|assumption].
        -- apply IH; [assumption|]. now inversion Hacc.
    + apply IH; [assumption|]. constructor; [|assumption].
      destruct Hs as [->|Hs]; [discriminate|assumption].
Qed.

Lemma split_plain s : Forall (fun w => w = "" \/ plain w) (JS.split "/" s).
Proof.
  apply (List.Forall_impl (P := fun w => existsb (Ascii.eqb "/") (list_ascii_of_string w) = false));
    [|exact (split_components "/"%char s)].
  intros w Hw. destruct w as [|c w]; [now left|]. right. split; [discriminate|].
  simpl in Hw. apply orb_false_iff in Hw as [Hc _].
  simpl. destruct c as [[] [] [] [] [] [] [] []]; try reflexivity. discriminate.
Qed.

Lemma concat_plain (l : list string) :
  l <> [] -> Forall plain l -> plain (String.concat "/" l).
Proof.
  destruct l as [|x l]; [contradiction|]. intros _ Hall.
  inversion Hall as [|? ? [Hx Habs] _]; subst.
  destruct x as [|c x]; [contradiction|].
  destruct l; [now split|]. split; [discriminate|exact Habs].
Qed.

Lemma entryName_plain name : entryName name = true -> plain name.
Proof.
  intros H. apply entryName_inv in H as (Hne & Hslash & _).
  split; [assumption|]. destruct name as [|c name]; [contradiction|].
  simpl in Hslash. apply orb_false_iff in Hslash as [Hc _].
  simpl. unfold pathLib.isSlash in Hc.
  destruct c as [[] [] [] [] [] [] [] []]; try reflexivity. discriminate.
Qed.

Lemma entryName_last name :
  entryName name = true ->
  exists c r, rev (list_ascii_of_string name) = c :: r /\ pathLib.isSlash c = false /\
              forallb (fun c => negb (pathLib.isSlash c)) (rev (list_ascii_of_string name)) = true.
Proof.
  intros H. apply entryName_inv in H as (Hne & Hslash & _).
  assert (Hall : forallb (fun c => negb (pathLib.isSlash c))
                   (rev (list_ascii_of_string name)) = true).
  { apply forallb_forall. intros c Hc. apply in_rev in Hc.
    apply negb_true_iff. apply not_true_is_false. intros Hs.
    assert (existsb pathLib.isSlash (list_ascii_of_string name) = true)
      by (apply existsb_exists; eauto).
    congruence. }
  destruct (rev (list_ascii_of_string name)) as [|c r] eqn:Hrev.
  - exfalso. apply Hne. rewrite <- (string_of_list_ascii_of_string name).
    rewrite <- (rev_involutive (list_ascii_of_string name)), Hrev. reflexivity.
  - exists c, r. split; [reflexivity|]. split; [|assumption].
    simpl in Hall. apply andb_true_iff in Hall as [Hc _]. now apply negb_true_iff.
Qed.

Lemma endsWithSlash_entry a name :
  entryName name = true -> pathLib.endsWithSlash (a ++ name) = false.
Proof.
  intros H. destruct (entryName_last name H) as (c & r & Hrev & Hc & _).
  unfold pathLib.endsWithSlash. rewrite chars_app, rev_app_distr, Hrev. simpl.
  unfold pathLib.isSlash in Hc.
  destruct c as [[] [] [] [] [] [] [] []]; try reflexivity. discriminate.
Qed.

(** The normalised form of a path whose last segment is an entry's name:
    the name alone, the name under the root directory, or the name under
    a directory path that is neither empty nor the root. *)
Lemma normalize_entry p S name :
  entryName name = true ->
  JS.split "/" p = (S ++ [name])%list ->
  pathLib.endsWithSlash p = false ->
  pathLib.normalize p = name \/
  pathLib.normalize p = "/" ++ name \/
  exists dd, dd <> "" /\ dd <> "/" /\ pathLib.normalize p = dd ++ "/" ++ name.
Proof.
  intros Hname Hsplit Hend.
  pose proof (entryName_inv _ Hname) as (Hne & _ & Hdot & Hdotdot).
  unfold pathLib.normalize. rewrite Hsplit, Hend.
  destruct (String.eqb_spec p "") as [->|_].
  { exfalso. destruct S; simpl in Hsplit; [congruence|]. destruct S; discriminate. }
  destruct (normalizeSegments_plain (negb (pathLib.isAbsolute p)) S [])
    as (acc & Hacc & Hnorm); [|constructor|].
  { assert (HS : Forall (fun w => w = "" \/ plain w) (S ++ [name])%list)
      by (rewrite <- Hsplit; apply split_plain).
    now apply Forall_app in HS as [HS _]. }
  rewrite Hnorm. cbn [pathLib.normalizeSegments].
  apply String.eqb_neq in Hne, Hdot, Hdotdot. rewrite Hne, Hdot, Hdotdot.
  cbn [orb rev]. change (rev acc ++ [name])%list with (rev acc ++ [name])%list.
  rewrite concat_snoc.
  assert (Hrev : Forall plain (rev acc)) by now apply Forall_rev.
  apply String.eqb_neq in Hne.
  destruct (rev acc) as [|x xs] eqn:Hx.
  - apply String.eqb_neq in Hne. rewrite Hne, append_empty_r.
    destruct (pathLib.isAbsolute p); [right; left|left]; reflexivity.
  - set (c := String.concat "/" (x :: xs)).
    assert (Hc : plain c) by (apply concat_plain; [discriminate|assumption]).
    assert (Hbody : String.eqb (c ++ "/" ++ name) "" = false).
    { apply String.eqb_neq, append_nonempty_r. discriminate. }
    rewrite Hbody, append_empty_r. right. right.
    destruct Hc as [Hc Habs].
    destruct (pathLib.isAbsolute p).
    + exists ("/" ++ c). split; [discriminate|]. split.
      * destruct c; [contradiction|discriminate].
      * reflexivity.
    + exists c. split; [assumption|]. split; [|reflexivity].
      intros ->. discriminate.
Qed.

Lemma join_entry position name :
  entryName name = true ->
  pathLib.join position name = name \/
  pathLib.join position name = "/" ++ name \/
  exists dd, dd <> "" /\ dd <> "/" /\ pathLib.join position name = dd ++ "/" ++ name.
Proof.
  intros Hname. pose proof (entryName_inv _ Hname) as (Hne & Hslash & _).
  assert (Hsplit : JS.split "/" name = [name]).
  { apply split_no_separator.
    assert (Hsame : forall l, existsb (Ascii.eqb "/") l = existsb pathLib.isSlash l).
    { induction l as [|c l IHl]; [reflexivity|].
      simpl. unfold pathLib.isSlash at 1. now rewrite IHl, Ascii.eqb_sym. }
    now rewrite Hsame. }
  unfold pathLib.join. apply String.eqb_neq in Hne. rewrite Hne.
  destruct (String.eqb position "").
  - apply (normalize_entry name [] name Hname Hsplit).
    apply (endsWithSlash_entry "" name Hname).
  - apply (normalize_entry _ (JS.split "/" position) name Hname).
    + change (position ++ "/" ++ name) with (position ++ String "/" name).
      now rewrite split_app, Hsplit.
    + rewrite <- append_assoc. now apply endsWithSlash_entry.
Qed.

Lemma span_app {A} (f : A -> bool) (l R : list A) :
  forallb f l = true ->
  match R with [] => True | x :: _ => f x = false end ->
  pathLib.span f (l ++ R) = (l, R).
Proof.
  intros Hl HR. induction l as [|x l IH]; simpl.
  - destruct R as [|y R]; [reflexivity|]. simpl. now rewrite HR.
  - simpl in Hl. apply andb_true_iff in Hl as [Hx Hl]. now rewrite Hx, (IH Hl).
Qed.

(** [path.parse] of a path made of a directory part [D], empty or ending
    with a slash, and a last component [cn] without slash. *)
Lemma parse_components (abs : bool) (D cn : list ascii) :
  cn <> [] ->
  forallb (fun c => negb (pathLib.isSlash c)) cn = true ->
  (D = [] \/ exists D', D = (D' ++ ["/"%char])%list) ->
  (abs = false -> match D with [] => True | c :: _ => pathLib.isSlash c = false end) ->
  pathLib.parse (string_of_list_ascii ((if abs then ["/"%char] else []) ++ D ++ cn)) =
  let rt := if abs then "/" else "" in
  let ne := pathLib.splitExt (match D with [] => negb abs | _ => true end) cn in
  {| pathLib.root := rt;
     pathLib.dir := match D with
                    | [] => rt
                    | _ => rt ++ string_of_list_ascii (removelast D)
                    end;
     pathLib.base := string_of_list_ascii cn;
     pathLib.ext := string_of_list_ascii ne.2;
     pathLib.name := string_of_list_ascii ne.1 |}.
Proof.
  intros Hcn Hns HD Habs.
  assert (Hrev : exists c r, rev cn = c :: r /\ pathLib.isSlash c = false).
  { destruct (rev cn) as [|c r] eqn:Hr.
    - exfalso. apply Hcn. rewrite <- (rev_involutive cn), Hr. reflexivity.
    - exists c, r. split; [reflexivity|].
      assert (Hc : In c cn) by (apply in_rev; rewrite Hr; now left).
      rewrite forallb_forall in Hns. apply negb_true_iff. now apply Hns. }
  destruct Hrev as (c & r & Hrev & Hc).
  assert (Hspan : pathLib.span (fun c => negb (pathLib.isSlash c)) (rev cn ++ rev D)
                  = (rev cn, rev D)).
  { apply span_app.
    - rewrite forallb_forall in *. intros x Hx. apply Hns. now apply in_rev.
    - destruct HD as [->|[D' ->]]; [exact I|].
      rewrite rev_app_distr. reflexivity. }
  assert (Hmain : forall body, body = (D ++ cn)%list ->
     forall (rt : string) (dd : bool),
     match pathLib.dropWhile pathLib.isSlash (rev body) with
     | [] => {| pathLib.root := rt; pathLib.dir := rt; pathLib.base := ""; pathLib.ext := ""; pathLib.name := "" |}
     | rb =>
        let (rbase, rrest) := pathLib.span (fun c => negb (pathLib.isSlash c)) rb in
        let b := rev rbase in
        let d := match rrest with
                 | [] => rt
                 | _slash :: rdir => rt ++ string_of_list_ascii (rev rdir)
                 end in
        let dotdot := match rrest with
                      | [] => dd
                      | _ => true
                      end in
        let (n, e) := pathLib.splitExt dotdot b in
        {| pathLib.root := rt; pathLib.dir := d;
           pathLib.base := string_of_list_ascii b;
           pathLib.ext := string_of_list_ascii e;
           pathLib.name := string_of_list_ascii n |}
     end =
     let ne := pathLib.splitExt (match D with [] => dd | _ => true end) cn in
     {| pathLib.root := rt;
        pathLib.dir := match D with
                    | [] => rt
                    | _ => rt ++ string_of_list_ascii (removelast D)
                    end;
        pathLib.base := string_of_list_ascii cn;
        pathLib.ext := string_of_list_ascii ne.2;
        pathLib.name := string_of_list_ascii ne.1 |}).
  { intros body -> rt dd. rewrite rev_app_distr, Hrev.
    cbn [app pathLib.dropWhile]. rewrite Hc.
    change (c :: (r ++ rev D)%list) with ((c :: r) ++ rev D)%list.
    rewrite <- Hrev, Hspan, rev_involutive.
    destruct HD as [->|[D' ->]].
    - cbn [rev]. now destruct (pathLib.splitExt dd cn).
    - rewrite rev_app_distr. cbn [rev app]. rewrite rev_involutive, removelast_last.
      destruct (pathLib.splitExt true cn) as [n e] eqn:Hne.
      destruct D'; cbn [app]; rewrite Hne; reflexivity. }
  unfold pathLib.parse. rewrite list_ascii_of_string_of_list_ascii.
  destruct abs.
  - cbn [app]. apply (Hmain (D ++ cn)%list eq_refl "/" false).
  - cbn [app]. destruct D as [|c0 D1].
    + cbn [app]. destruct cn as [|c0 cn1] eqn:Hcn0; [contradiction|].
      simpl in Hns. apply andb_true_iff in Hns as [Hc0 _]. apply negb_true_iff in Hc0.
      cbv zeta. rewrite Hc0. rewrite <- Hcn0 in *.
      apply (Hmain cn eq_refl "" true).
    + specialize (Habs eq_refl). cbn [app]. cbv zeta. rewrite Habs.
      apply (Hmain (c0 :: D1 ++ cn)%list eq_refl "" true).
Qed.

Lemma splitExt_dotdot (cn : list ascii) :
  String.eqb (string_of_list_ascii cn) ".." = false ->
  pathLib.splitExt false cn = pathLib.splitExt true cn.
Proof.
  intros H. unfold pathLib.splitExt.
  destruct (pathLib.span _ (rev cn)) as [rext rrest].
  destruct rrest as [|dot [|c rname]]; try reflexivity.
  now rewrite H.
Qed.

(** [path.parse] and [path.format] on the path of an entry: the base is
    the entry's name and the path is formatted back as it was. *)
Lemma parse_entry p name :
  entryName name = true ->
  (p = name \/ p = "/" ++ name \/
   exists dd, dd <> "" /\ dd <> "/" /\ p = dd ++ "/" ++ name) ->
  pathLib.base (pathLib.parse p) = name /\
  pathLib.name (pathLib.parse p) = stem name /\
  (let o := pathLib.parse p in
   pathLib.format (pathLib.root o) (pathLib.dir o) (pathLib.base o)
     (pathLib.ext o) (pathLib.name o)) = p.
Proof.
  intros Hname Hshape.
  pose proof (entryName_inv _ Hname) as (Hne & Hslash & _ & Hdd).
  set (cn := list_ascii_of_string name).
  assert (Hstr : string_of_list_ascii cn = name) by apply string_of_list_ascii_of_string.
  assert (Hcn : cn <> []).
  { intros H. apply Hne. rewrite <- Hstr, H. reflexivity. }
  assert (Hns : forallb (fun c => negb (pathLib.isSlash c)) cn = true).
  { apply forallb_forall. intros c Hc. apply negb_true_iff, not_true_is_false.
    intros Hs. assert (existsb pathLib.isSlash cn = true) by (apply existsb_exists; eauto).
    subst cn. congruence. }
  assert (Hext : pathLib.splitExt false cn = pathLib.splitExt true cn).
  { apply splitExt_dotdot. rewrite Hstr. now apply String.eqb_neq. }
  assert (Hbase : String.eqb name "" = false) by now apply String.eqb_neq.
  destruct Hshape as [->|[->|(dd & Hdd1 & Hdd2 & ->)]].
  - pose proof (parse_components false [] cn Hcn Hns (or_introl eq_refl) (fun _ => I)) as Hp.
    cbn [app] in Hp. rewrite Hstr in Hp. rewrite Hp. cbn -[pathLib.splitExt].
    rewrite Hbase. repeat split.
  - pose proof (parse_components true [] cn Hcn Hns (or_introl eq_refl)) as Hp.
    cbn [app] in Hp.
    change (string_of_list_ascii ("/"%char :: cn)) with ("/" ++ string_of_list_ascii cn) in Hp.
    rewrite Hstr in Hp. rewrite Hp by discriminate. cbn -[pathLib.splitExt].
    rewrite Hext, Hbase. repeat split.
  - destruct dd as [|c d1]; [contradiction|].
    destruct (Ascii.ascii_dec c "/") as [->|Hc].
    + assert (Hd1 : d1 <> "") by (intros ->; contradiction).
      pose proof (parse_components true (list_ascii_of_string d1 ++ ["/"%char]) cn Hcn Hns
                    (or_intror (ex_intro _ _ eq_refl))) as Hp.
      cbv beta iota zeta in Hp.
      assert (Hpath : string_of_list_ascii
                        (["/"%char] ++ (list_ascii_of_string d1 ++ ["/"%char]) ++ cn)
                      = String "/" d1 ++ "/" ++ name).
      { rewrite !string_app, string_of_list_ascii_of_string, Hstr.
        simpl. now rewrite append_assoc. }
      rewrite Hpath in Hp. rewrite Hp by discriminate. clear Hp.
      rewrite removelast_last, string_of_list_ascii_of_string.
      destruct (list_ascii_of_string d1 ++ ["/"%char])%list eqn:HD;
        [now destruct (list_ascii_of_string d1)|].
      cbn -[pathLib.splitExt]. rewrite Hstr. repeat split.
      unfold pathLib.format. simpl. rewrite Hbase.
      destruct d1; [contradiction|reflexivity].
    + pose proof (parse_components false (list_ascii_of_string (String c d1) ++ ["/"%char]) cn
                    Hcn Hns (or_intror (ex_intro _ _ eq_refl))) as Hp.
      cbv beta iota zeta in Hp.
      assert (Hpath : string_of_list_ascii
                        ([] ++ (list_ascii_of_string (String c d1) ++ ["/"%char]) ++ cn)
                      = String c d1 ++ "/" ++ name).
      { cbn [app]. rewrite !string_app, string_of_list_ascii_of_string, Hstr.
        simpl. now rewrite append_assoc. }
      rewrite Hpath in Hp. rewrite Hp; clear Hp.
      2:{ intros _. simpl. unfold pathLib.isSlash.
          destruct (Ascii.eqb_spec c "/"); [contradiction|reflexivity]. }
      rewrite removelast_last, string_of_list_ascii_of_string.
      cbn -[pathLib.splitExt]. rewrite Hstr. repeat split.
      unfold pathLib.format. simpl. now rewrite Hbase.
Qed.

Lemma parseFilename_parsed filename f :
  parseFilename filename = Some f -> parsed f = pathLib.parse filename.
Proof.
  unfold parseFilename.
  destruct filename as [|c rest]; [now intros [= <-]|].
  destruct (Ascii.ascii_dec c ".") as [->|Hne]; [discriminate|].
  destruct c as [[] [] [] [] [] [] [] []]; try (now intros [= <-]).
Qed.

(** X8.  When the entries of the folder reached bear names as [readdir]
    lists them, the path [locateFilePath] returns is the folder's
    position joined with the name of one of its plain files; what is left
    of that name without its extension, up to the first question mark, is
    the last segment of the request; and the path does not start with a
    dot.  So a directory, and anything but a plain file, is never
    returned. *)
Theorem locateFilePath_returns_entry (E : ArraySort) (tree : fs.Node)
  (path : string) (queryParams : option Query) (root : string)
  (before : list string) (leaf position : string)
  (entries : list (string * fs.Node)) (p : string) :
  JS.split "/" (stripSlash path) = (before ++ [leaf])%list ->
  descend before root tree = Some (position, fs.Dir entries) ->
  (forall name n, In (name, n) entries -> entryName name = true) ->
  locateFilePath E tree path queryParams root = JS.Return (Some p) ->
  exists name,
    In (name, fs.File) entries /\
    p = pathLib.join position name /\
    default "" (JS.split "?" (stem name) !! 0%nat) = leaf /\
    forall rest, p <> String "." rest.
Proof.
  intros Hs Hd Hnames Hp.
  apply locateFilePath_some in Hp as (l & m & Hl & Hin & ->).
  apply candidates_walk in Hl
    as (_ & before' & leaf' & position' & entries' & files & Hs' & Hd' & Hfiles & ->).
  rewrite Hs in Hs'. apply app_inj_tail in Hs' as [<- <-].
  rewrite Hd in Hd'. injection Hd' as <- <-.
  apply scoredMatches_In in Hin as (Hin & Hleaf & _).
  apply (parsedFiles_In _ _ _ _ Hfiles) in Hin as (name & Hentry & Hparse).
  pose proof (Hnames _ _ Hentry) as Hname.
  destruct (parse_entry (pathLib.join position name) name Hname (join_entry position name Hname))
    as (_ & Hstem & Hformat).
  assert (Hpath : format (item m) = pathLib.join position name).
  { unfold format. rewrite (parseFilename_parsed _ _ Hparse). exact Hformat. }
  exists name. split; [assumption|]. split; [assumption|]. split.
  - simpl in Hleaf. injection Hleaf as ->.
    rewrite (parseFilename_nameStripped _ _ Hparse). unfold strippedName.
    now rewrite Hstem.
  - intros rest Hdot. rewrite Hpath in Hdot.
    assert (Hnone : parseFilename (pathLib.join position name) = None)
      by (apply parseFilename_hidden; eauto).
    congruence.
Qed.

(** [/path1/resource] where [path1] holds [resource.json]. *)
Lemma locateFilePath_returns_entry_witness :
  exists name,
    In (name, fs.File) [("resource.json", fs.File)] /\
    "mocks/path1/resource.json" = pathLib.join "mocks/path1" name /\
    default "" (JS.split "?" (stem name) !! 0%nat) = "resource" /\
    forall rest, "mocks/path1/resource.json" <> String "." rest.
Proof.
  refine (locateFilePath_returns_entry v8_timsort
            (fs.Dir [("path1", fs.Dir [("resource.json", fs.File)])])
            "/path1/resource" None "mocks" ["path1"] "resource" "mocks/path1"
            [("resource.json", fs.File)] "mocks/path1/resource.json" _ _ _ _).
  - vm_compute. reflexivity.
  - vm_compute. reflexivity.
  - intros name n [H|[]]. injection H as <- <-. vm_compute. reflexivity.
  - vm_compute. reflexivity.
Defined.

(** ** The logger and what the host receives *)

Section HostFacts.

Context {Json : Type} (JSON_parse : string -> JS.Completion Json).
Context (E : ArraySort) (w : World) (host : Host Json).

Lemma exec_app (calls calls' : list Call) logger :
  exec JSON_parse E w host (calls ++ calls') logger
  = exec JSON_parse E w host calls' (exec JSON_parse E w host calls logger).
Proof. unfold exec. apply fold_left_app. Qed.

(** With the path of a file in hand the middleware calls no one and
    hands the path to [fs.readFile]. *)
Lemma serveLocally_middleware_found root logger req filePath :
  locateFilePath E (tree w) (req_path req) (req_query req) root = JS.Return (Some filePath) ->
  filePath <> "" ->
  serveLocally_middleware E host root logger w req = ([], JS.Return (Some filePath)).
Proof.
  intros Hl Hne. unfold serveLocally_middleware. rewrite Hl.
  cbn [lift tryCatchE ret bindE noFilePath app].
  apply String.eqb_neq in Hne. now rewrite Hne.
Qed.

(** Every call of the logger that the middleware makes goes to the
    logger it was run under, and so does every call its callback makes. *)
Lemma serveLocally_middleware_logger root logger req lg arguments :
  In (LoggerCall lg arguments) (serveLocally_middleware E host root logger w req).1 ->
  lg = logger.
Proof.
  unfold serveLocally_middleware, callLogger, call.
  assert (Hnone : forall evs,
             In (LoggerCall lg arguments)
                (bindE (Json := Json) (evs, JS.Return None)
                   (fun filePath : option string =>
                      if noFilePath filePath then
                        bindE (lift (pathLib.resolve (cwd w) (pathLib.join root (req_path req))))
                          (fun resolved =>
                             bindE ([LoggerCall logger
                                       [argString "Could not find match for";
                                        argString resolved]],
                                    loggerResult host logger
                                      [argString "Could not find match for";
                                       argString resolved])
                               (fun _ => bindE ([NextCall], next_result host)
                                           (fun _ => ret None)))
                      else ret filePath)).1 ->
             evs = [] -> lg = logger).
  { intros evs Hin ->. cbn [bindE noFilePath lift app] in Hin.
    destruct (pathLib.resolve _ _) as [resolved|e]; cbn [bindE app] in Hin; [|destruct Hin].
    destruct (loggerResult host logger _) as [[]|e]; cbn [bindE app] in Hin.
    - destruct (next_result host) as [[]|e]; cbn [bindE ret app fst] in Hin;
        destruct Hin as [[= <- _]|[H|[]]]; try reflexivity; discriminate.
    - destruct Hin as [[= <- _]|[]]. reflexivity. }
  destruct (locateFilePath E (tree w) (req_path req) (req_query req) root)
    as [[filePath|]|e]; cbn [lift tryCatchE ret app].
  - destruct (String.eqb filePath "") eqn:Hempty.
    + apply String.eqb_eq in Hempty as ->. intros Hin.
      cbn [bindE noFilePath String.eqb lift app] in Hin.
      destruct (pathLib.resolve _ _) as [resolved|e]; cbn [bindE app] in Hin; [|destruct Hin].
      destruct (loggerResult host logger _) as [[]|e]; cbn [bindE app] in Hin.
      * destruct (next_result host) as [[]|e]; cbn [bindE ret app fst] in Hin;
          destruct Hin as [[= <- _]|[H|[]]]; try reflexivity; discriminate.
      * destruct Hin as [[= <- _]|[]]. reflexivity.
    + cbn [bindE noFilePath]. rewrite Hempty. intros [].
  - intros Hin. now apply (Hnone []).
  - intros Hin. now apply (Hnone []).
Qed.

Lemma readFile_callback_logger logger filePath outcome lg arguments :
  In (LoggerCall lg arguments) (readFile_callback JSON_parse host logger filePath outcome).1 ->
  lg = logger.
Proof.
  unfold readFile_callback, callLogger, call.
  destruct outcome as [data|e]; [|intros [H|[]]; discriminate].
  destruct (JSON_parse data) as [parsed|e]; cbn [lift tryCatchE ret bindE app].
  - destruct (loggerResult host logger _) as [[]|e]; cbn [bindE app fst].
    + destruct (res_json_result host parsed);
        intros [[= <- _]|[H|[]]]; try reflexivity; discriminate.
    + intros [[= <- _]|[]]. reflexivity.
  - destruct (loggerResult host logger _) as [[]|e']; cbn [bindE app fst].
    + destruct (next_result host) as [[]|e']; cbn [bindE ret app fst];
        intros [[= <- _]|[H|[]]]; try reflexivity; discriminate.
    + intros [[= <- _]|[]]. reflexivity.
Qed.

(** X9.  The logger belongs to the module, not to the middleware: every
    call a middleware makes to the logger, whatever [serveLocally] call
    made it, goes to the logger the module holds when the request is
    handled, and every call the callback of [fs.readFile] makes goes to
    the logger the module holds when the callback is run.  That logger is
    the one of the last [serveLocally] call that supplied one (a
    function, or [true] for [console.log]); a [serveLocally] call without
    logger, a request handled, a callback run and a resolution leave it
    as it is. *)
Theorem logger_is_module_wide (calls : list Call) (logger : Logger) :
  (forall root req lg arguments,
      In (LoggerCall lg arguments)
         (serveLocally_middleware E host root (exec JSON_parse E w host calls logger) w req).1 ->
      lg = exec JSON_parse E w host calls logger) /\
  (forall filePath outcome lg arguments,
      In (LoggerCall lg arguments)
         (readFile_callback JSON_parse host (exec JSON_parse E w host calls logger)
            filePath outcome).1 ->
      lg = exec JSON_parse E w host calls logger) /\
  (forall r name,
      exec JSON_parse E w host
        (calls ++ [callServeLocally (Some {| opt_root := r; opt_logger := optFunction name |})])
        logger = loggerFunction name) /\
  (forall r,
      exec JSON_parse E w host
        (calls ++ [callServeLocally (Some {| opt_root := r; opt_logger := optTrue |})])
        logger = consoleLog) /\
  (forall r,
      exec JSON_parse E w host
        (calls ++ [callServeLocally (Some {| opt_root := r; opt_logger := optOther |})])
        logger = exec JSON_parse E w host calls logger) /\
  exec JSON_parse E w host (calls ++ [callServeLocally None]) logger
    = exec JSON_parse E w host calls logger /\
  (forall root req,
      exec JSON_parse E w host (calls ++ [callMiddleware root req]) logger
      = exec JSON_parse E w host calls logger) /\
  (forall filePath,
      exec JSON_parse E w host (calls ++ [callReadFileCallback filePath]) logger
      = exec JSON_parse E w host calls logger) /\
  (forall path queryParams root,
      exec JSON_parse E w host (calls ++ [callLocateFilePath path queryParams root]) logger
      = exec JSON_parse E w host calls logger).
Proof.
  split; [|split].
  - intros root req lg arguments. apply serveLocally_middleware_logger.
  - intros filePath outcome lg arguments. apply readFile_callback_logger.
  - repeat split; intros; rewrite exec_app; reflexivity.
Qed.

(** X10.  What a host whose functions return receives for a request,
    call by call.  No file found (an error thrown, [undefined], or an
    empty path): the logger gets "Could not find match for" with the
    resolved path of the request under the root, then [next()] is called.
    The file cannot be read: [next()] alone, the logger is not called.
    The content does not parse: the logger gets "Could not parse json
    from", the path and the error, then [next()].  Otherwise the logger
    gets "Responding with data from" and the path, then [res.json] gets
    the data.  The calls made once the file has been read go to the
    logger of that moment. *)
Theorem serveLocally_middleware_trace (root : string) (logger logger' : Logger)
  (req : Request) :
  (forall arguments, loggerResult host logger arguments = JS.Return tt) ->
  (forall arguments, loggerResult host logger' arguments = JS.Return tt) ->
  next_result host = JS.Return tt ->
  (forall data, res_json_result host data = JS.Return tt) ->
  let located := locateFilePath E (tree w) (req_path req) (req_query req) root in
  let received := events (handle JSON_parse E host root logger logger' w req) in
  let notFound resolved :=
    [LoggerCall logger [argString "Could not find match for"; argString resolved];
     NextCall] in
  (forall resolved,
      pathLib.resolve (cwd w) (pathLib.join root (req_path req)) = JS.Return resolved ->
      (forall e, located = JS.Throw e -> received = notFound resolved) /\
      (located = JS.Return None -> received = notFound resolved) /\
      (located = JS.Return (Some "") -> received = notFound resolved)) /\
  (forall filePath e,
      located = JS.Return (Some filePath) -> filePath <> "" ->
      readFile w filePath = JS.Throw e ->
      received = [NextCall]) /\
  (forall filePath data e,
      located = JS.Return (Some filePath) -> filePath <> "" ->
      readFile w filePath = JS.Return data -> JSON_parse data = JS.Throw e ->
      received = [LoggerCall logger'
                    [argString "Could not parse json from"; argString filePath; argError e];
                  NextCall]) /\
  (forall filePath data parsed,
      located = JS.Return (Some filePath) -> filePath <> "" ->
      readFile w filePath = JS.Return data -> JSON_parse data = JS.Return parsed ->
      received = [LoggerCall logger'
                    [argString "Responding with data from"; argString filePath];
                  ResJsonCall parsed]).
Proof.
  intros Hlog Hlog' Hnext Hjson located received notFound. subst received notFound.
  unfold handle. split; [|split; [|split]].
  - intros resolved Hresolved.
    unfold serveLocally_middleware, callLogger, call. fold located.
    rewrite Hresolved, Hnext. repeat split.
    + intros e ->. cbn [lift tryCatchE ret bindE noFilePath app]. rewrite Hlog. reflexivity.
    + intros ->. cbn [lift tryCatchE ret bindE noFilePath app]. rewrite Hlog. reflexivity.
    + intros ->. cbn [lift tryCatchE ret bindE noFilePath app String.eqb].
      rewrite Hlog. reflexivity.
  - intros filePath e Hl Hne Hread.
    rewrite (serveLocally_middleware_found _ _ _ _ Hl Hne), Hread.
    unfold readFile_callback, call. now rewrite Hnext.
  - intros filePath data e Hl Hne Hread Hparse.
    rewrite (serveLocally_middleware_found _ _ _ _ Hl Hne), Hread.
    unfold readFile_callback, callLogger, call. rewrite Hparse, Hnext.
    cbn [lift tryCatchE ret bindE app]. rewrite Hlog'. reflexivity.
  - intros filePath data parsed Hl Hne Hread Hparse.
    rewrite (serveLocally_middleware_found _ _ _ _ Hl Hne), Hread.
    unfold readFile_callback, callLogger, call. rewrite Hparse.
    cbn [lift tryCatchE ret bindE app]. rewrite Hlog', Hjson. reflexivity.
Qed.

(** X18.  Whatever the host's functions do, return or throw, a request
    is answered at most once: [next()] and [res.json] are never both
    called, and neither is called twice.  When nothing throws, neither
    the middleware nor its callback, it is answered exactly once. *)
Theorem handle_answers_once (root : string) (logger logger' : Logger) (req : Request) :
  let result := handle JSON_parse E host root logger logger' w req in
  (nextCalls (events result) + length (responses (events result)) <= 1)%nat /\
  (returned result = JS.Return tt ->
   (forall e, calledBack result <> Some (JS.Throw e)) ->
   (nextCalls (events result) + length (responses (events result)) = 1)%nat).
Proof.
  unfold handle, serveLocally_middleware, readFile_callback, callLogger, call.
  destruct (locateFilePath E (tree w) (req_path req) (req_query req) root)
    as [[filePath|]|e]; cbn [lift tryCatchE ret bindE noFilePath app].
  1: destruct (String.eqb filePath ""); cbn [lift tryCatchE ret bindE noFilePath app].
  2: { destruct (readFile w filePath) as [data|e]; cbn [lift tryCatchE ret bindE app].
       - destruct (JSON_parse data) as [parsed|e]; cbn [lift tryCatchE ret bindE app];
           destruct (loggerResult host logger' _) as [[]|e']; cbn [bindE ret app];
           try destruct (res_json_result host parsed) as [[]|e''];
           try destruct (next_result host) as [[]|e''];
           cbn; (split; [lia|]); intros _ H; try reflexivity; exfalso; eapply H; reflexivity.
       - destruct (next_result host) as [[]|e']; cbn; (split; [lia|]); intros _ H;
           try reflexivity; exfalso; eapply H; reflexivity. }
  all: destruct (pathLib.resolve _ _) as [resolved|e']; cbn [lift bindE app];
    [destruct (loggerResult host logger _) as [[]|e'']; cbn [bindE app];
     [destruct (next_result host) as [[]|e3]; cbn [bindE ret app]|]|];
    cbn; (split; [lia|]); intros H _; try reflexivity; discriminate.
Qed.

End HostFacts.

(** [/resource] under [mocks], read and parsed, with [console.log] for
    the logger. *)
Lemma serveLocally_middleware_trace_witness :
  events (handle parseText v8_timsort quietHost "mocks" consoleLog consoleLog mocksWorld
            {| req_path := "/resource"; req_query := None |})
  = [LoggerCall consoleLog
       [argString "Responding with data from"; argString "mocks/resource.json"];
     ResJsonCall "{}"].
Proof.
  refine (proj2 (proj2 (proj2
            (serveLocally_middleware_trace parseText v8_timsort mocksWorld quietHost
               "mocks" consoleLog consoleLog
               {| req_path := "/resource"; req_query := None |} _ _ _ _)))
            "mocks/resource.json" "{}" "{}" _ _ _ _).
  - intros arguments. reflexivity.
  - intros arguments. reflexivity.
  - reflexivity.
  - intros data. reflexivity.
  - vm_compute. reflexivity.
  - discriminate.
  - reflexivity.
  - reflexivity.
Defined.

(** ** The two revisions *)

Lemma candidates_potentialMatches tree path queryParams opts :
  candidates tree path queryParams (Revision1.rootOf opts) =
  JS.bind (Revision1.potentialMatches tree path opts) (fun matches =>
  JS.Return
    (List.filter (fun m => negb (Qeq_bool (count m) (inject_Z (-1))))
       (List.map (fun m => {| item := m; count := fuzzyEqual queryParams (query m) |})
          matches))).
Proof.
  unfold candidates, Revision1.potentialMatches.
  destruct (findFolder _ _ tree) as [[[rest position] here]|e]; simpl; [|reflexivity].
  destruct (fs.readdirSync position here) as [entries|e]; simpl; [|reflexivity].
  destruct (parsedFiles position entries) as [files|e]; reflexivity.
Qed.

(** X11.  The later [locateFilePath] against the earlier one, under the
    same root: they throw the same errors; where the earlier finds no
    file the later finds none; where the later returns a file the earlier
    returns one; and on V8's TimSort, when the first file of the name is
    not scored [-1], they return the same file. *)
Theorem revisions_agree (E : ArraySort) (tree : fs.Node) (path : string)
  (queryParams : option Query) (opts : Options) :
  let earlier := Revision1.locateFilePath tree path queryParams opts in
  let later := fun E => locateFilePath E tree path queryParams (Revision1.rootOf opts) in
  (forall e, earlier = JS.Throw e <-> later E = JS.Throw e) /\
  (earlier = JS.Return None -> later E = JS.Return None) /\
  (forall p, later E = JS.Return (Some p) -> exists p', earlier = JS.Return (Some p')) /\
  (forall m ms,
      Revision1.potentialMatches tree path opts = JS.Return (m :: ms) ->
      ~ (fuzzyEqual queryParams (query m) == inject_Z (-1))%Q ->
      later v8_timsort = earlier).
Proof.
  intros earlier later. subst earlier later. cbv beta.
  unfold Revision1.locateFilePath.
  split; [|split; [|split]].
  - intros e. rewrite locateFilePath_candidates, candidates_potentialMatches.
    destruct (Revision1.potentialMatches tree path opts) as [[|m ms]|e']; simpl;
      split; try discriminate; try (intros [= <-]; reflexivity).
  - rewrite locateFilePath_candidates, candidates_potentialMatches.
    destruct (Revision1.potentialMatches tree path opts) as [[|m ms]|e']; simpl;
      try discriminate.
    intros _. now rewrite sort_nil.
  - intros p Hp. apply locateFilePath_some in Hp as (l & m & Hl & Hin & _).
    rewrite candidates_potentialMatches in Hl.
    destruct (Revision1.potentialMatches tree path opts) as [[|m' ms]|e']; simpl in *;
      try discriminate.
    + injection Hl as <-. destruct Hin.
    + eauto.
  - intros m ms Hm Hscore.
    rewrite locateFilePath_timsort, candidates_potentialMatches, Hm. simpl.
    destruct (Qeq_bool (fuzzyEqual queryParams (query m)) (inject_Z (-1))) eqn:Hq.
    + apply Qeq_bool_iff in Hq. contradiction.
    + reflexivity.
Qed.

Section Revision1Facts.

Context {Json : Type} (JSON_parse : string -> JS.Completion Json).


End Revision1Facts.

(** The folder of the repository's test on the insertion sort:
    [resource?foo=bar.json], listed second, is the one returned. *)
Lemma locateFilePath_legacy_highest_witness :
  exists m, In m (scoredMatches (Some (queryOf [("foo", "bar")])) (Some "resource")
                    (omap parseFilename
                       ["mocks/resource.json"; "mocks/resource?foo=bar.json"])) /\
            locateFilePath v8_legacy scenario2_tree "/resource"
              (Some (queryOf [("foo", "bar")])) "mocks"
            = JS.Return (Some (format (item m))) /\
            forall m', In m' (scoredMatches (Some (queryOf [("foo", "bar")]))
                                (Some "resource")
                                (omap parseFilename
                                   ["mocks/resource.json"; "mocks/resource?foo=bar.json"])) ->
                       (count m' <= count m)%Q.
Proof.
  refine (locateFilePath_legacy_highest scenario2_tree "/resource"
            (Some (queryOf [("foo", "bar")])) "mocks" _ _ _ _).
  - reflexivity.
  - vm_compute. lia.
  - vm_compute. discriminate.
Defined.

(** ** A root above the working directory *)

Lemma normalizeSegments_bottom S acc :
  exists acc', pathLib.normalizeSegments true (acc ++ [".."]) S = ".." :: rev acc'.
Proof.
  revert acc. induction S as [|s S IH]; intros acc.
  - exists acc. cbn [pathLib.normalizeSegments]. now rewrite rev_app_distr.
  - cbn [pathLib.normalizeSegments].
    destruct (String.eqb s "" || String.eqb s "."); [apply IH|].
    destruct (String.eqb s "..").
    + destruct acc as [|x acc]; cbn [app].
      * apply (IH [".."]).
      * destruct (String.eqb x "..").
        -- apply (IH (".." :: x :: acc)).
        -- apply IH.
    + apply (IH (s :: acc)).
Qed.

Lemma goesUp_first p : goesUp p -> exists rest, p = String "." rest.
Proof.
  intros [S HS]. destruct p as [|c p]; [discriminate|]. simpl in HS.
  destruct (Ascii.eqb c "/"); [discriminate|].
  destruct (JS.split "/" p); injection HS as -> _; eauto.
Qed.

Lemma normalize_goesUp p : goesUp p -> goesUp (pathLib.normalize p).
Proof.
  intros Hup. destruct (goesUp_first p Hup) as [rest ->]. destruct Hup as [S HS].
  unfold pathLib.normalize. rewrite HS.
  change (String.eqb (String "." rest) "") with false.
  change (pathLib.isAbsolute (String "." rest)) with false. cbv iota.
  change (pathLib.normalizeSegments (negb false) [] (".." :: S))
    with (pathLib.normalizeSegments true ([] ++ [".."]) S).
  destruct (normalizeSegments_bottom S []) as [acc ->].
  destruct (rev acc) as [|x xs] eqn:Hacc.
  - cbn. destruct (pathLib.endsWithSlash (String "." rest)); [now exists [""]|now exists []].
  - change (String.concat "/" (".." :: x :: xs))
      with (".." ++ String "/" (String.concat "/" (x :: xs))).
    set (c := String.concat "/" (x :: xs)).
    change (String.eqb (".." ++ String "/" c) "") with false. cbv iota.
    change ("" ++ (".." ++ String "/" c) ++
            (if pathLib.endsWithSlash (String "." rest) then "/" else ""))
      with (".." ++ String "/" (c ++ (if pathLib.endsWithSlash (String "." rest) then "/" else ""))).
    unfold goesUp. rewrite split_app. now eexists.
Qed.

Lemma join_goesUp position x : goesUp position -> goesUp (pathLib.join position x).
Proof.
  intros Hup. destruct (goesUp_first position Hup) as [rest ->].
  unfold pathLib.join. change (String.eqb (String "." rest) "") with false.
  destruct (String.eqb x ""); [now apply normalize_goesUp|].
  apply normalize_goesUp. destruct Hup as [S HS].
  change (String "." rest ++ "/" ++ x) with (String "." rest ++ String "/" x).
  unfold goesUp. rewrite split_app, HS. now eexists.
Qed.

Lemma findFolder_goesUp path position here rest position' there :
  goesUp position ->
  findFolder path position here = JS.Return (rest, position', there) ->
  goesUp position'.
Proof.
  revert position here.
  induction path as [|fragment path IH]; intros position here Hup Hf.
  - now injection Hf as _ <- _.
  - destruct path as [|s ss]; [now injection Hf as _ <- _|].
    cbn [findFolder] in Hf.
    destruct (match_ fragment position here) as [directory|e]; [|discriminate].
    cbn [JS.bind] in Hf.
    destruct (statEntry (pathLib.join position directory) directory here) as [stats|e];
      [|discriminate].
    cbn [JS.bind] in Hf. destruct (fs.isDirectory stats); [|discriminate].
    apply (IH _ _ (join_goesUp position directory Hup) Hf).
Qed.

(** X13.  Under a root that starts by going up, [..] or [../mocks], the
    path of every entry starts with a dot, [parseFilename] takes every
    file for a hidden one, and [locateFilePath] never returns a file,
    whatever the tree, the request and the engine. *)
Theorem locateFilePath_root_above (E : ArraySort) (tree : fs.Node)
  (path : string) (queryParams : option Query) (root : string) :
  goesUp root ->
  forall p, locateFilePath E tree path queryParams root <> JS.Return (Some p).
Proof.
  intros Hup p Hp.
  apply locateFilePath_some in Hp as (l & m & Hl & Hin & _).
  apply candidates_inv in Hl as (rest & position & entries & files & Hf & _ & Hfiles & ->).
  apply scoredMatches_In in Hin as (Hin & _).
  apply (parsedFiles_In _ _ _ _ Hfiles) in Hin as (name & _ & Hparse).
  pose proof (findFolder_goesUp _ _ _ _ _ _ Hup Hf) as Hpos.
  assert (Hnone : parseFilename (pathLib.join position name) = None).
  { apply parseFilename_hidden. apply goesUp_first. now apply join_goesUp. }
  congruence.
Qed.

(** [resource.json] under the root [../mocks]. *)
Lemma locateFilePath_root_above_witness :
  locateFilePath v8_timsort (fs.Dir [("resource.json", fs.File)]) "/resource" None "../mocks"
  <> JS.Return (Some "../mocks/resource.json").
Proof.
  refine (locateFilePath_root_above v8_timsort (fs.Dir [("resource.json", fs.File)])
            "/resource" None "../mocks" _ "../mocks/resource.json").
  exists ["mocks"]. vm_compute. reflexivity.
Defined.

(** ** The order of the request's keys *)

(** [{a: "1", b: "2"}] enumerated as [a], [b] and as [b], [a]. *)
Lemma fuzzyLoop_Permutation_witness :
  fuzzyLoop [("a", JS.VStr "1"); ("b", JS.VStr "2")] (querystring.parse (Some "a=1&b=3")) 0
  = fuzzyLoop [("b", JS.VStr "2"); ("a", JS.VStr "1")] (querystring.parse (Some "a=1&b=3")) 0.
Proof.
  refine (fuzzyLoop_Permutation _ _ _ _ _). apply perm_swap.
Defined.

(** ** Candidates that name part of the request, or more *)

Lemma agreeing_entries (actual matching : Query) :
  (forall key v, matching !! key = Some v -> exists s, v = JS.VStr s /\ s <> "") ->
  (forall key v mv, actual !! key = Some v -> matching !! key = Some mv -> mv = v) ->
  existsb (mismatch matching) (map_to_list actual) = false /\
  forall e, In e (List.filter (agrees matching) (map_to_list actual)) <->
            actual !! e.1 = Some e.2 /\ matching !! e.1 = Some e.2.
Proof.
  intros Hvalues Hsame. split.
  - apply not_true_is_false. intros Hex.
    apply existsb_exists in Hex as ([key v] & Hin & Hm).
    apply list_elem_of_In, elem_of_map_to_list in Hin.
    unfold mismatch in Hm. simpl in Hm.
    destruct (matching !! key) as [mv|] eqn:Hmv; [|discriminate].
    pose proof (Hsame _ _ _ Hin Hmv) as Heq.
    destruct (Hvalues _ _ Hmv) as (s & Hs & _). subst mv v.
    change (JS.looseEq (JS.VStr s) (JS.VStr s)) with (String.eqb s s) in Hm.
    rewrite String.eqb_refl, andb_false_r in Hm. discriminate.
  - intros [key v]. rewrite filter_In. simpl.
    rewrite <- list_elem_of_In, elem_of_map_to_list. unfold agrees. simpl.
    split.
    + intros [Ha Hag]. split; [assumption|].
      destruct (matching !! key) as [mv|] eqn:Hmv; [|discriminate].
      now rewrite (Hsame _ _ _ Ha Hmv).
    + intros [Ha Hm]. split; [assumption|]. rewrite Hm.
      destruct (Hvalues _ _ Hm) as (s & -> & Hs). simpl.
      apply String.eqb_neq in Hs. now rewrite Hs, String.eqb_refl.
Qed.

(** X14.  A candidate whose parsed query is part of the request's (some
    of its keys, with the request's values, non-empty strings) scores the
    number of keys it names.  A candidate whose parsed query holds the
    request's (all its keys with its values, non-empty strings) and more
    keys besides scores the number of the request's keys less the number
    of keys in excess, and no less than one half. *)
Theorem fuzzyEqual_inclusion (actual matching : Query) :
  (forall key v, matching !! key = Some v -> exists s, v = JS.VStr s /\ s <> "") ->
  (matching ⊆ actual ->
   fuzzyEqual (Some actual) matching = inject_Z (Z.of_nat (size matching))) /\
  (actual ⊆ matching -> (0 < size actual < size matching)%nat ->
   fuzzyEqual (Some actual) matching =
   Qmax (inject_Z (Z.of_nat (size actual)
                   - (Z.of_nat (size matching) - Z.of_nat (size actual))))
        (1 # 2)).
Proof.
  intros Hvalues. split.
  - intros Hsub.
    destruct (agreeing_entries actual matching Hvalues) as [Hno Hin].
    { intros key v mv Ha Hm. pose proof (lookup_weaken _ _ _ _ Hm Hsub). congruence. }
    assert (Hlen : length (List.filter (agrees matching) (map_to_list actual)) = size matching).
    { rewrite <- length_map_to_list. apply Permutation_length, NoDup_Permutation.
      - apply NoDup_ListNoDup, List.NoDup_filter, NoDup_ListNoDup, NoDup_map_to_list.
      - apply NoDup_map_to_list.
      - intros [key v]. rewrite list_elem_of_In, Hin. simpl.
        rewrite elem_of_map_to_list. split; [now intros [_ H]|].
        intros Hm. split; [|assumption]. apply (lookup_weaken _ _ _ _ Hm Hsub). }
    unfold fuzzyEqual. rewrite fuzzyLoop_spec, Hno, Hlen, !keys_length.
    pose proof (map_subseteq_size _ _ Hsub) as Hsize.
    replace (Z.of_nat (size actual) <? Z.of_nat (size matching)) with false
      by (symmetry; apply Z.ltb_ge; lia).
    now rewrite andb_false_r.
  - intros Hsub [Hpos Hmore].
    destruct (agreeing_entries actual matching Hvalues) as [Hno Hin].
    { intros key v mv Ha Hm. pose proof (lookup_weaken _ _ _ _ Ha Hsub). congruence. }
    assert (Hlen : length (List.filter (agrees matching) (map_to_list actual)) = size actual).
    { rewrite <- length_map_to_list. f_equal. apply forallb_filter_id, forallb_forall.
      intros [key v] He. pose proof He as He'.
      apply list_elem_of_In, elem_of_map_to_list in He'.
      assert (Hf : In (key, v) (List.filter (agrees matching) (map_to_list actual))).
      { apply Hin. simpl. split; [assumption|]. apply (lookup_weaken _ _ _ _ He' Hsub). }
      now apply filter_In in Hf as [_ Hf]. }
    unfold fuzzyEqual. rewrite fuzzyLoop_spec, Hno, Hlen, !keys_length.
    replace (0 <? 0 + Z.of_nat (size actual)) with true by (symmetry; apply Z.ltb_lt; lia).
    replace (Z.of_nat (size actual) <? Z.of_nat (size matching)) with true
      by (symmetry; apply Z.ltb_lt; lia).
    reflexivity.
Qed.

(** The request [?a=1&b=2] against the candidate named [...?a=1]. *)
Lemma fuzzyEqual_inclusion_witness :
  fuzzyEqual (Some (queryOf [("a", "1"); ("b", "2")])) (queryOf [("a", "1")])
  = inject_Z (Z.of_nat (size (queryOf [("a", "1")]))).
Proof.
  assert (Hone : forall key v,
             queryOf [("a", "1")] !! key = Some v -> key = "a" /\ v = JS.VStr "1").
  { intros key v Hkey. destruct (decide (key = "a")) as [->|Ha].
    - vm_compute in Hkey. now injection Hkey as <-.
    - unfold queryOf in Hkey. simpl in Hkey.
      rewrite lookup_insert_ne, lookup_empty in Hkey by congruence. discriminate. }
  refine (proj1 (fuzzyEqual_inclusion (queryOf [("a", "1"); ("b", "2")])
                   (queryOf [("a", "1")]) _) _).
  - intros key v Hkey. destruct (Hone key v Hkey) as [_ ->].
    exists "1". split; [reflexivity|discriminate].
  - apply map_subseteq_spec. intros key v Hkey. destruct (Hone key v Hkey) as [-> ->].
    vm_compute. reflexivity.
Defined.

(** ** The file TimSort leaves first *)

Lemma first_scoredMatches queryParams leaf files :
  first (scoredMatches queryParams (Some leaf) files) =
  option_map format
    (List.find (fun f => String.eqb (nameStripped f) leaf
                         && negb (Qeq_bool (fuzzyEqual queryParams (query f)) (inject_Z (-1))))
       files).
Proof.
  unfold scoredMatches. induction files as [|f files IH]; [reflexivity|].
  cbn [List.filter List.find].
  destruct (String.eqb_spec (nameStripped f) leaf) as [Heq|Hne].
  - rewrite bool_decide_eq_true_2 by congruence. cbn [List.map List.filter count andb].
    destruct (negb (Qeq_bool (fuzzyEqual queryParams (query f)) (inject_Z (-1))));
      [reflexivity|exact IH].
  - rewrite bool_decide_eq_false_2 by congruence. exact IH.
Qed.

(** X15.  On V8's TimSort (Node 11 and later) the comparator of
    [locateFilePath] sorts nothing, and once the folder is reached and
    its entries stat'ed the file returned is the first one, in the order
    of the listing, that has the last segment for its stripped name and is
    not scored [-1], whatever the scores of those listed after it. *)
Theorem locateFilePath_timsort_first_listed (tree : fs.Node) (path : string)
  (queryParams : option Query) (root : string)
  (before : list string) (leaf position : string) (entries : list (string * fs.Node))
  (files : list ParsedFile) :
  JS.split "/" (stripSlash path) = (before ++ [leaf])%list ->
  root <> "" ->
  descend before root tree = Some (position, fs.Dir entries) ->
  parsedFiles position entries = JS.Return files ->
  locateFilePath v8_timsort tree path queryParams root =
  JS.Return
    (option_map format
       (List.find
          (fun f => String.eqb (nameStripped f) leaf
                    && negb (Qeq_bool (fuzzyEqual queryParams (query f)) (inject_Z (-1))))
          files)).
Proof.
  intros Hs Hroot Hd Hfiles.
  rewrite locateFilePath_candidates,
    (candidates_reached _ _ _ _ _ _ _ _ _ Hs Hroot Hd Hfiles).
  cbn [JS.bind]. change (sort v8_timsort byCount) with (V8.TimSort byCount).
  rewrite (TimSort_nonneg byCount byCount_nonneg).
  f_equal. apply first_scoredMatches.
Qed.

(** The folder of the repository's test, in the order of its listing:
    [resource.json], listed first, wins over [resource?foo=bar.json] for
    the request [?foo=bar]. *)
Lemma locateFilePath_timsort_first_listed_witness :
  locateFilePath v8_timsort scenario2_tree "/resource" (Some (queryOf [("foo", "bar")]))
    "mocks" =
  JS.Return
    (option_map format
       (List.find
          (fun f => String.eqb (nameStripped f) "resource"
                    && negb (Qeq_bool (fuzzyEqual (Some (queryOf [("foo", "bar")])) (query f))
                               (inject_Z (-1))))
          (omap parseFilename ["mocks/resource.json"; "mocks/resource?foo=bar.json"]))).
Proof.
  refine (locateFilePath_timsort_first_listed scenario2_tree "/resource"
            (Some (queryOf [("foo", "bar")])) "mocks" [] "resource" "mocks"
            [("resource.json", fs.File); ("resource?foo=bar.json", fs.File)] _ _ _ _ _).
  - vm_compute. reflexivity.
  - discriminate.
  - reflexivity.
  - vm_compute. reflexivity.
Defined.

(** ** An entry that cannot be stat'ed *)

Lemma onlyFiles_throws (f : string * fs.Node -> string * fs.Node)
  (earlier later : list (string * fs.Node)) name code :
  (forall e, (f e).2 = e.2) ->
  forallb (fun e => statable e.2) earlier = true ->
  onlyFiles (List.map f (earlier ++ (name, fs.NoStat code) :: later))
  = JS.Throw (JS.SystemError code (f (name, fs.NoStat code)).1).
Proof.
  intros Hf. induction earlier as [|e earlier IH]; intros Hall.
  - cbn [app List.map onlyFiles]. rewrite Hf. reflexivity.
  - simpl in Hall. apply andb_true_iff in Hall as [He Hall].
    cbn [app List.map onlyFiles].
    rewrite Hf, (statSync_statable _ _ He). cbn [JS.bind]. now rewrite (IH Hall).
Qed.

(** X20.  A folder that holds an entry that cannot be stat'ed answers
    no request: once the folder is reached, [locateFilePath] throws the
    error of the first such entry of the listing, whatever the last
    segment, the query and the engine, and whatever files the folder
    holds besides. *)
Theorem locateFilePath_unstatable_entry (E : ArraySort) (tree : fs.Node)
  (path : string) (queryParams : option Query) (root : string)
  (before : list string) (leaf position : string)
  (earlier later : list (string * fs.Node)) (name code : string) :
  JS.split "/" (stripSlash path) = (before ++ [leaf])%list ->
  root <> "" ->
  descend before root tree
  = Some (position, fs.Dir (earlier ++ (name, fs.NoStat code) :: later)) ->
  (forall name' n, In (name', n) earlier -> statable n = true) ->
  locateFilePath E tree path queryParams root
  = JS.Throw (JS.SystemError code (pathLib.join position name)).
Proof.
  intros Hs Hroot Hd Hearlier.
  destruct (findFolder_walk _ _ _ _ _ _ _ Hs Hroot Hd) as [Hwalk Hpos].
  unfold locateFilePath. rewrite Hwalk. cbn [JS.bind].
  rewrite (readdirSync_Dir _ _ Hpos). cbn [JS.bind]. unfold parsedFiles.
  rewrite (onlyFiles_throws (fun e => (pathLib.join position e.1, e.2)));
    [reflexivity|reflexivity|now apply statable_forallb].
Qed.

(** [resource.json] in a folder where a link to nothing is listed
    before it. *)
Lemma locateFilePath_unstatable_entry_witness :
  locateFilePath v8_timsort
    (fs.Dir [("a.json", fs.File); ("dangling", fs.NoStat "ENOENT"); ("resource.json", fs.File)])
    "/resource" None "mocks"
  = JS.Throw (JS.SystemError "ENOENT" (pathLib.join "mocks" "dangling")).
Proof.
  refine (locateFilePath_unstatable_entry v8_timsort
            (fs.Dir [("a.json", fs.File); ("dangling", fs.NoStat "ENOENT");
                     ("resource.json", fs.File)])
            "/resource" None "mocks" [] "resource" "mocks"
            [("a.json", fs.File)] [("resource.json", fs.File)] "dangling" "ENOENT" _ _ _ _).
  - vm_compute. reflexivity.
  - discriminate.
  - reflexivity.
  - intros name' n [H|[]]. injection H as <- <-. reflexivity.
Defined.

(** ** A value that differs *)

(** X19.  When the candidate's parsed query gives some key of the
    request a value that is not empty and differs ([!=]) from the
    request's, [fuzzyEqual] scores it [-1]; a file that is returned comes
    from a name-matching file of the folder reached that agrees with the
    request on every key for which it holds a non-empty value; and when
    the folder has been listed, its entries stat'ed, and every
    name-matching file of it is at odds with the request in that way, the
    result is [undefined], no file. *)
Theorem fuzzyEqual_mismatch_excluded (E : ArraySort) (tree : fs.Node)
  (path root : string) (actual : Query) :
  (forall (matching : Query) key av mv,
      actual !! key = Some av -> matching !! key = Some mv ->
      JS.falsy mv = false -> JS.looseEq mv av = false ->
      fuzzyEqual (Some actual) matching = inject_Z (-1)) /\
  (forall p,
      locateFilePath E tree path (Some actual) root = JS.Return (Some p) ->
      exists before leaf position entries files f,
        JS.split "/" (stripSlash path) = (before ++ [leaf])%list /\
        descend before root tree = Some (position, fs.Dir entries) /\
        parsedFiles position entries = JS.Return files /\
        In f files /\
        nameStripped f = leaf /\
        p = format f /\
        forall key av mv,
          actual !! key = Some av -> query f !! key = Some mv ->
          JS.falsy mv = false -> JS.looseEq mv av = true) /\
  (forall before leaf position entries files,
      JS.split "/" (stripSlash path) = (before ++ [leaf])%list ->
      root <> "" ->
      descend before root tree = Some (position, fs.Dir entries) ->
      parsedFiles position entries = JS.Return files ->
      (forall f, In f files -> nameStripped f = leaf ->
                 exists key av mv,
                   actual !! key = Some av /\ query f !! key = Some mv /\
                   JS.falsy mv = false /\ JS.looseEq mv av = false) ->
      locateFilePath E tree path (Some actual) root = JS.Return None).
Proof.
  split; [|split].
  - intros matching key av mv. apply fuzzyEqual_mismatch.
  - intros p Hp.
    apply locateFilePath_some in Hp as (l & m & Hl & Hin & ->).
    apply candidates_walk in Hl
      as (_ & before & leaf & position & entries & files & Hs & Hd & Hfiles & ->).
    apply scoredMatches_In in Hin as (Hin & Hleaf & Hcount & Hne).
    exists before, leaf, position, entries, files, (item m).
    repeat split; try assumption; [congruence|].
    intros key av mv Ha Hm Hf.
    destruct (JS.looseEq mv av) eqn:Hl; [reflexivity|]. exfalso. apply Hne.
    rewrite Hcount, (fuzzyEqual_mismatch actual _ key av mv) by assumption.
    reflexivity.
  - intros before leaf position entries files Hs Hroot Hd Hfiles Hall.
    apply locateFilePath_none.
    rewrite (candidates_reached _ _ _ _ _ _ _ _ _ Hs Hroot Hd Hfiles). f_equal.
    destruct (scoredMatches _ _ _) as [|m ms] eqn:Hm; [reflexivity|]. exfalso.
    assert (Hin : In m (scoredMatches (Some actual) (Some leaf) files))
      by (rewrite Hm; now left).
    apply scoredMatches_In in Hin as (Hin & Hleaf & Hcount & Hne).
    destruct (Hall _ Hin) as (key & av & mv & Ha & Hmv & Hf & Hl); [congruence|].
    apply Hne. rewrite Hcount, (fuzzyEqual_mismatch actual _ key av mv) by assumption.
    reflexivity.
Qed.
